(** * Peak extraction engine of AutoFTIR ([core/spectrum/peaks.py])

    A shallow embedding of the peak extraction routines and the properties
    of them that the specification states.  Further down it also covers
    the code around them: the quick peak finder
    ([utils/peak_finder.py]), the copy of the engine and the waterfall
    offset in the generated script ([templates/ftir_template.py]), and the
    peak detection of the backend spectroscopy template.

    Numbers.  The routines work on [float64] arrays.  The algorithm of the
    engine (which samples are local maxima, where the walks stop, which
    candidates survive and in which order they are returned) is embedded
    over exact rationals ([Q]); the samples handed in by a caller may be
    non-finite, they are values of type [sample], and
    [extract_top_peaks] drops them before any arithmetic happens, exactly
    as the [np.isfinite] mask does.  Where the outcome depends on
    rounding, on overflow or on NaN, the routines are embedded a second
    time over IEEE 754 binary64 (module [F64], on [SpecFloat] of the
    Standard Library): the engine itself, the quick peak finder and the
    waterfall offset.

    Outcomes.  A call either returns a value, raises a Python exception or
    (for the [while] loops that count upwards, which are run with fuel)
    runs out of fuel; see [result]. *)

From Stdlib Require Import List ZArith QArith Qminmax Qround Bool Lia Lqa.
From Stdlib Require Import Permutation Sorted SpecFloat.
Import ListNotations.

Set Implicit Arguments.

(** ** Outcomes of a call *)

Inductive exn : Type :=
| IndexError   (* an array index out of bounds *)
| ValueError   (* a reduction over an empty array *)
| ZeroDivisionError.  (* a division of floats by zero *)

Inductive result (A : Type) : Type :=
| Ok (a : A)
| Raise (e : exn)
| OutOfFuel.

Arguments Ok {A} a.
Arguments Raise {A} e.
Arguments OutOfFuel {A}.

Definition bind {A B : Type} (c : result A) (k : A -> result B) : result B :=
  match c with
  | Ok a => k a
  | Raise e => Raise e
  | OutOfFuel => OutOfFuel
  end.

Notation "x <- c ;; k" := (bind c (fun x => k))
  (at level 61, c at next level, right associativity).

Definition map_result {A B : Type} (f : A -> B) (c : result A) : result B :=
  x <- c ;; Ok (f x).

(** ** Comparisons and array access *)

(** [a < b] on numbers, as a boolean. *)
Definition Qlt_bool (a b : Q) : bool := negb (Qle_bool b a).

(** Python's builtin [max(a, b)] and [min(a, b)]: the first argument is
    kept unless the second one is strictly greater (smaller). *)
Definition py_max (a b : Q) : Q := if Qlt_bool a b then b else a.
Definition py_min (a b : Q) : Q := if Qlt_bool b a then b else a.

(** [a[i]] for a non-negative index [i].  Indices are natural numbers: the
    routines below only index with [peak_i], [j], [li], [ri] and their
    neighbours, and never go below 0 on an array of at least three samples
    (the callers guarantee that size; on an empty array [n - 1] would be
    [-1] in Python and is [0] here). *)
Definition get (a : list Q) (i : nat) : result Q :=
  match nth_error a i with
  | Some v => Ok v
  | None => Raise IndexError
  end.

(** [sum(...)] of Python: left to right, starting from [0]. *)
Definition py_sum (l : list Q) : Q := fold_left Qplus l 0.

(** The sum of [f m] over the indices [m] of a list. *)
Definition Qsum {I : Type} (f : I -> Q) (l : list I) : Q :=
  fold_right Qplus 0 (map f l).

(** ** The data model *)

Inductive Kind : Type := KMax | KMin.

Record PeakRange : Type := mkPeakRange {
  kind : Kind;
  left : Q;
  center : Q;
  right : Q;
  prominence : Q
}.

Inductive Mode : Type := Auto | Max | Min.

(** A sample as a caller hands it in: a finite number, an infinity or NaN. *)
Inductive sample : Type :=
| Fin (q : Q)
| Inf (negative : bool)
| NaN.

Definition isfinite (v : sample) : bool :=
  match v with Fin _ => true | _ => false end.

(** [-v] on samples. *)
Definition neg (v : sample) : sample :=
  match v with
  | Fin q => Fin (- q)
  | Inf b => Inf (negb b)
  | NaN => NaN
  end.

(** ** [_smooth] *)

(** [np.convolve(a, v, mode="same")] for [len(a) >= len(v)], the only case
    [_smooth] reaches: sample [k] of the result is sample
    [k + (len(v) - 1) // 2] of the full convolution
    [full[j] = sum_m a[m] * v[j - m]]. *)
Definition convolve_full_at (a v : list Q) (j : nat) : Q :=
  Qsum (fun m => nth m a 0 * (if (m <=? j)%nat then nth (j - m) v 0 else 0))
       (seq 0 (length a)).

Definition convolve_same (a v : list Q) : list Q :=
  map (fun k => convolve_full_at a v (k + (length v - 1) / 2))
      (seq 0 (length a)).

Definition _smooth (y : list Q) (window : Z) : list Q :=
  if (window <=? 1)%Z then y
  else
    let w := window in
    let w := if (w mod 2 =? 0)%Z then (w + 1)%Z else w in
    if (Z.of_nat (length y) <? w)%Z then y
    else
      let kernel := map (fun o => o / inject_Z w) (repeat 1 (Z.to_nat w)) in
      convolve_same y kernel.

(** ** [_local_maxima_indices] *)

(** [np.nonzero(mask)[0]], counting from [i]. *)
Fixpoint nonzero_from (i : nat) (mask : list bool) : list nat :=
  match mask with
  | [] => []
  | b :: mask' =>
      if b then i :: nonzero_from (S i) mask' else nonzero_from (S i) mask'
  end.

Definition nonzero (mask : list bool) : list nat := nonzero_from 0 mask.

Definition _local_maxima_indices (s : list Q) : list nat :=
  if (length s <? 3)%nat then []
  else
    let left := firstn (length s - 2) s in              (* s[:-2]  *)
    let mid := firstn (length s - 2) (skipn 1 s) in     (* s[1:-1] *)
    let right := skipn 2 s in                           (* s[2:]   *)
    let mask :=
      map (fun t : Q * (Q * Q) =>
             let '(l, (m, r)) := t in
             Qle_bool l m && Qle_bool r m && (Qlt_bool l m || Qlt_bool r m))
          (combine left (combine mid right)) in
    map S (nonzero mask).

(** ** The flanking-minimum walks *)

(** The loop of [_nearest_local_min_left], entered with the current [j];
    [j] only decreases, so the recursion is on [j]. *)
Fixpoint left_walk (s : list Q) (j : nat) : result nat :=
  match j with
  | O => Ok 0%nat
  | S j' =>
      sj <- get s j ;;
      sl <- get s j' ;;
      if Qle_bool sj sl then
        sr <- get s (S j) ;;
        if Qle_bool sj sr then Ok j else left_walk s j'
      else left_walk s j'
  end.

Definition _nearest_local_min_left (s : list Q) (i : nat) : result nat :=
  left_walk s (i - 1).

(** The loop of [_nearest_local_min_right]; [j] increases towards
    [n - 1], so the loop is run with fuel. *)
Fixpoint right_walk (fuel : nat) (s : list Q) (j : nat) : result nat :=
  match fuel with
  | O => OutOfFuel
  | S fuel' =>
      if (j <? length s - 1)%nat then
        sj <- get s j ;;
        sl <- get s (j - 1) ;;
        if Qle_bool sj sl then
          sr <- get s (S j) ;;
          if Qle_bool sj sr then Ok j else right_walk fuel' s (S j)
        else right_walk fuel' s (S j)
      else Ok (length s - 1)%nat
  end.

Definition _nearest_local_min_right (s : list Q) (i : nat) : result nat :=
  right_walk (S (length s)) s (i + 1).

(** ** Half-prominence width *)

Definition _interp_x_at_level (x s : list Q) (i0 i1 : nat) (level : Q)
  : result Q :=
  x0 <- get x i0 ;;
  x1 <- get x i1 ;;
  y0 <- get s i0 ;;
  y1 <- get s i1 ;;
  if Qeq_bool y0 y1 then Ok x0
  else
    let t := (level - y0) / (y1 - y0) in
    Ok (x0 + t * (x1 - x0)).

(** [while li > left_min_i and s[li] > level: li -= 1] *)
Fixpoint width_walk_left (s : list Q) (left_min_i : nat) (level : Q)
    (li : nat) : result nat :=
  match li with
  | O => Ok 0%nat
  | S li' =>
      if (left_min_i <? li)%nat then
        v <- get s li ;;
        if Qlt_bool level v then width_walk_left s left_min_i level li'
        else Ok li
      else Ok li
  end.

(** [while ri < right_min_i and s[ri] > level: ri += 1], with fuel. *)
Fixpoint width_walk_right (fuel : nat) (s : list Q) (right_min_i : nat)
    (level : Q) (ri : nat) : result nat :=
  match fuel with
  | O => OutOfFuel
  | S fuel' =>
      if (ri <? right_min_i)%nat then
        v <- get s ri ;;
        if Qlt_bool level v
        then width_walk_right fuel' s right_min_i level (S ri)
        else Ok ri
      else Ok ri
  end.

Definition _half_prominence_width (x s : list Q)
    (peak_i left_min_i right_min_i : nat) (baseline prominence : Q)
  : result (Q * Q) :=
  let level := baseline + (1 # 2) * prominence in
  li <- width_walk_left s left_min_i level peak_i ;;
  left_x <- (if (li =? peak_i)%nat then get x peak_i
             else _interp_x_at_level x s li (li + 1) level) ;;
  ri <- width_walk_right (S (length s)) s right_min_i level peak_i ;;
  right_x <- (if (ri =? peak_i)%nat then get x peak_i
              else _interp_x_at_level x s (ri - 1) ri level) ;;
  Ok (left_x, right_x).

(** ** [_extract_peaks_from_signal] *)

(** [np.nanmax] and [np.nanmin] of an array without NaN. *)
Definition nanmax (a : list Q) : result Q :=
  match a with
  | [] => Raise ValueError
  | v :: a' => Ok (fold_left Qmax a' v)
  end.

Definition nanmin (a : list Q) : result Q :=
  match a with
  | [] => Raise ValueError
  | v :: a' => Ok (fold_left Qmin a' v)
  end.

(** The body of the [for peak_i in peak_indices] loop for one index: the
    candidate it appends, if any. *)
Definition candidate (x ss : list Q) (min_prominence : Q) (kind : Kind)
    (peak_i : nat) : result (option (Q * PeakRange)) :=
  left_min_i <- _nearest_local_min_left ss peak_i ;;
  right_min_i <- _nearest_local_min_right ss peak_i ;;
  sl <- get ss left_min_i ;;
  sr <- get ss right_min_i ;;
  let baseline := py_max sl sr in
  sp <- get ss peak_i ;;
  let prominence := sp - baseline in
  if Qle_bool prominence 0 || Qlt_bool prominence min_prominence then Ok None
  else
    lr <- _half_prominence_width x ss peak_i left_min_i right_min_i
            baseline prominence ;;
    let '(left_x, right_x) := lr in
    center <- get x peak_i ;;
    let lo := py_min left_x right_x in
    let hi := py_max left_x right_x in
    let pr := mkPeakRange kind lo center hi prominence in
    Ok (Some (prominence, pr)).

(** The whole loop: the list [candidates] after it. *)
Fixpoint collect (x ss : list Q) (min_prominence : Q) (kind : Kind)
    (peak_indices : list nat) : result (list (Q * PeakRange)) :=
  match peak_indices with
  | [] => Ok []
  | peak_i :: rest =>
      c <- candidate x ss min_prominence kind peak_i ;;
      cs <- collect x ss min_prominence kind rest ;;
      Ok (match c with Some t => t :: cs | None => cs end)
  end.

(** [candidates.sort(key=lambda t: t[0], reverse=True)]: a stable sort by
    decreasing key.  [insert_desc t l] puts [t] in front of the first
    element whose key is not greater than the key of [t]. *)
Fixpoint insert_desc {A : Type} (t : Q * A) (l : list (Q * A))
  : list (Q * A) :=
  match l with
  | [] => [t]
  | u :: l' =>
      if Qlt_bool (fst t) (fst u) then u :: insert_desc t l' else t :: l
  end.

Fixpoint sort_desc {A : Type} (l : list (Q * A)) : list (Q * A) :=
  match l with
  | [] => []
  | t :: l' => insert_desc t (sort_desc l')
  end.

Definition _extract_peaks_from_signal (x s : list Q) (top_n : Z)
    (smooth_window : Z) (min_prominence_ratio : Q) (kind : Kind)
  : result (list PeakRange) :=
  let ss := _smooth s smooth_window in
  let peak_indices := _local_maxima_indices ss in
  if (length peak_indices =? 0)%nat then Ok []
  else
    global_span <- (if existsb (fun _ => true) ss
                    then hi <- nanmax ss ;; lo <- nanmin ss ;; Ok (hi - lo)
                    else Ok 0) ;;
    let min_prominence :=
      if Qlt_bool 0 global_span then global_span * min_prominence_ratio
      else 0 in
    candidates <- collect x ss min_prominence kind peak_indices ;;
    let candidates := sort_desc candidates in
    Ok (map snd (firstn (Z.to_nat (Z.max 0 top_n)) candidates)).

(** ** [extract_top_peaks] *)

(** [a[mask]] *)
Fixpoint select {A : Type} (mask : list bool) (a : list A) : list A :=
  match mask, a with
  | b :: mask', v :: a' => if b then v :: select mask' a' else select mask' a'
  | _, _ => []
  end.

(** [np.isfinite(x_arr) & np.isfinite(y_arr)] *)
Fixpoint finite_mask (x y : list sample) : list bool :=
  match x, y with
  | u :: x', v :: y' => (isfinite u && isfinite v) :: finite_mask x' y'
  | _, _ => []
  end.

(** The number a finite sample stands for.  Only finite samples pass the
    mask, so the last case is never used by [extract_top_peaks]. *)
Definition value (v : sample) : Q :=
  match v with Fin q => q | _ => 0 end.

Definition extract_top_peaks (x y : list sample) (top_n : Z) (mode : Mode)
    (smooth_window : Z) (min_prominence_ratio : Q)
  : result (list PeakRange) :=
  if negb (length x =? length y)%nat || (length x <? 3)%nat then Ok []
  else
    let mask := finite_mask x y in
    let x_arr := map value (select mask x) in
    let y_arr := map value (select mask y) in
    if (length x_arr <? 3)%nat then Ok []
    else
      match mode with
      | Max =>
          _extract_peaks_from_signal x_arr y_arr top_n smooth_window
            min_prominence_ratio KMax
      | Min =>
          _extract_peaks_from_signal x_arr (map Qopp y_arr) top_n
            smooth_window min_prominence_ratio KMin
      | Auto =>
          peaks_max <- _extract_peaks_from_signal x_arr y_arr top_n
                         smooth_window min_prominence_ratio KMax ;;
          peaks_min <- _extract_peaks_from_signal x_arr (map Qopp y_arr)
                         top_n smooth_window min_prominence_ratio KMin ;;
          let score_max := py_sum (map prominence peaks_max) in
          let score_min := py_sum (map prominence peaks_min) in
          Ok (if Qlt_bool score_max score_min then peaks_min else peaks_max)
      end.

(** The default parameters of [extract_top_peaks]. *)
Definition default_top_n : Z := 5.
Definition default_smooth_window : Z := 7.
Definition default_min_prominence_ratio : Q := 1 # 100.

(** ** The smoother of the generated-script copy

    [_extract_top_peak_ranges._smooth] in [templates/ftir_template.py]:
    [series.rolling(window=w, center=True, min_periods=1).mean()], the mean
    of the samples of the centred window that exist. *)
Definition rolling_mean_center (series : list Q) (w : nat) : list Q :=
  map (fun k =>
         let h := ((w - 1) / 2)%nat in
         let lo := (k - h)%nat in
         let hi := Nat.min (length series) (k + h + 1) in
         let win := firstn (hi - lo) (skipn lo series) in
         fold_right Qplus 0 win / inject_Z (Z.of_nat (length win)))
      (seq 0 (length series)).

Definition template_smooth (series : list Q) (window : Z) : list Q :=
  let w := window in
  if (w <=? 1)%Z then series
  else
    let w := if (w mod 2 =? 0)%Z then (w + 1)%Z else w in
    rolling_mean_center series (Z.to_nat w).

(** ** Inputs of the scenarios *)

(** Scenario D of the specification: x = [0,1,2], y = [1,2,1]. *)
Definition scenario_d_x : list sample := [Fin 0; Fin 1; Fin 2].
Definition scenario_d_y : list sample := [Fin 1; Fin 2; Fin 1].

(** A flat signal of seven samples: x = [0,...,6], y = [5,...,5]. *)
Definition flat_x : list sample :=
  [Fin 0; Fin 1; Fin 2; Fin 3; Fin 4; Fin 5; Fin 6].
Definition flat_y : list sample := repeat (Fin 5) 7.

(** ** The smoother as the specification words it

    The window that is used: an even [window] is incremented by 1. *)
Definition effective_window (window : Z) : Z :=
  if (window mod 2 =? 0)%Z then (window + 1)%Z else window.

(** The signal extended by zeros on both sides. *)
Definition padded (s : list Q) (i : Z) : Q :=
  if (i <? 0)%Z then 0 else nth (Z.to_nat i) s 0.

(** The centred boxcar average of width [w] around sample [k] of the
    zero-padded signal. *)
Definition boxcar (s : list Q) (w : Z) (k : nat) : Q :=
  Qsum (fun d => padded s (Z.of_nat k + Z.of_nat d - (w - 1) / 2))
       (seq 0 (Z.to_nat w))
  / inject_Z w.

(** The kernel of [_smooth]: [np.ones(w, dtype=float) / float(w)]. *)
Definition boxcar_kernel (w : Z) : list Q :=
  map (fun o => o / inject_Z w) (repeat 1 (Z.to_nat w)).

(** Sample [j] lies in the window of width [w] that is centred on sample
    [k]. *)
Definition in_window (w : Z) (k j : nat) : Prop :=
  (Z.of_nat k - (w - 1) / 2 <= Z.of_nat j <= Z.of_nat k + (w - 1) / 2)%Z.

(** ** Predicates that the statements below use *)

(** [s[i]] as a total function, for indices known to be in range. *)
Definition at_ (s : list Q) (i : nat) : Q := nth i s 0.

(** [i] is an interior sample that is at least as large as both of its
    neighbours and strictly larger than one of them. *)
Definition strict_local_max (s : list Q) (i : nat) : Prop :=
  (1 <= i)%nat /\ (i + 2 <= length s)%nat /\
  at_ s (i - 1) <= at_ s i /\ at_ s (i + 1) <= at_ s i /\
  (at_ s (i - 1) < at_ s i \/ at_ s (i + 1) < at_ s i).

(** [j] is a local minimum in the sense of the two walks. *)
Definition local_min (s : list Q) (j : nat) : Prop :=
  at_ s j <= at_ s (j - 1) /\ at_ s j <= at_ s (j + 1).

(** What every record of a result satisfies. *)
Definition valid_peak (p : PeakRange) : Prop :=
  left p <= right p /\ 0 < prominence p.

(** The sort key of a candidate is the prominence of its record. *)
Definition keyed (t : Q * PeakRange) : Prop := fst t = prominence (snd t).

(** A list of candidates, or of numbers, in non-increasing order. *)
Definition sorted_desc {A : Type} (l : list (Q * A)) : Prop :=
  StronglySorted (fun t u => fst u <= fst t) l.

Definition non_increasing (l : list Q) : Prop :=
  StronglySorted (fun a b => b <= a) l.

(** The same record with another [kind]. *)
Definition relabel (k : Kind) (p : PeakRange) : PeakRange :=
  mkPeakRange k (left p) (center p) (right p) (prominence p).

(** The candidates that survive, as a list: [None] entries are dropped. *)
Definition survivors {A : Type} (l : list (option A)) : list A :=
  flat_map (fun c => match c with Some t => [t] | None => [] end) l.

(** Indices at which the loop body of [_extract_peaks_from_signal] can
    read both neighbours. *)
Definition candidate_indices_ok (ss : list Q) (peaks : list nat) : Prop :=
  Forall (fun i => (1 <= i)%nat /\ (i + 2 <= length ss)%nat) peaks.

(** The valid samples of an input: the arrays [x_arr] and [y_arr] of
    [extract_top_peaks] after the mask. *)
Definition valid_x (x y : list sample) : list Q :=
  map value (select (finite_mask x y) x).
Definition valid_y (x y : list sample) : list Q :=
  map value (select (finite_mask x y) y).

(** The same candidate with another [kind] on its record. *)
Definition relabel_candidate (k : Kind) (t : Q * PeakRange)
  : Q * PeakRange := (fst t, relabel k (snd t)).

(** The span of a smoothed signal and the prominence threshold that
    [_extract_peaks_from_signal] derives from it (lines 130 and 131):
    [nanmax(ss) - nanmin(ss)], or [0.0] for an array without a finite
    sample, and [global_span * min_prominence_ratio] when the span is
    positive, [0.0] otherwise. *)
Definition global_span_of (ss : list Q) : Q :=
  match ss with
  | [] => 0
  | v :: a => fold_left Qmax a v - fold_left Qmin a v
  end.

Definition min_prominence_of (ss : list Q) (min_prominence_ratio : Q) : Q :=
  if Qlt_bool 0 (global_span_of ss)
  then global_span_of ss * min_prominence_ratio
  else 0.

(** What the loop body does with the local maximum [i] when the
    threshold is [mp]: with [L] and [R] the flanking minima that the two
    walks return and [prom = ss[i] - max(ss[L], ss[R])], the candidate is
    skipped exactly when [prom <= 0 or prom < mp]; a candidate that is
    kept has [prom] as its sort key and as the prominence of its record,
    [x[i]] as the center and [k] as the kind. *)
Definition loop_outcome (x ss : list Q) (mp : Q) (k : Kind) (i : nat)
    (c : option (Q * PeakRange)) : Prop :=
  exists L R,
    _nearest_local_min_left ss i = Ok L /\
    _nearest_local_min_right ss i = Ok R /\
    let prom := at_ ss i - py_max (at_ ss L) (at_ ss R) in
    match c with
    | None => prom <= 0 \/ prom < mp
    | Some t =>
        ~ prom <= 0 /\ ~ prom < mp /\
        fst t = prom /\ prominence (snd t) = prom /\
        center (snd t) = at_ x i /\ kind (snd t) = k
    end.

(** [i] is an interior sample strictly above both of its neighbours. *)
Definition strict_peak (s : list Q) (i : nat) : Prop :=
  (1 <= i)%nat /\ (i + 2 <= length s)%nat /\
  at_ s (i - 1) < at_ s i /\ at_ s (i + 1) < at_ s i.

(** ** The entries of the peak payload

    The generated script hands each peak on as
    [{"kind": ..., "center": round(center),
      "range": [round(left), round(right)]}]. *)

(** Python's [round(x)] for a finite [x]: the nearest integer, a tie
    going to the even one. *)
Definition py_round (q : Q) : Z :=
  let f := Qfloor q in
  match Qcompare (q - inject_Z f) (1 # 2) with
  | Lt => f
  | Gt => (f + 1)%Z
  | Eq => if Z.even f then f else (f + 1)%Z
  end.

Module Payload.

Record Entry : Type := mkEntry {
  kind : Kind;
  center : Z;
  range : Z * Z
}.

End Payload.

Definition peak_payload_entry (p : PeakRange) : Payload.Entry :=
  Payload.mkEntry (kind p) (py_round (center p))
    (py_round (left p), py_round (right p)).

(** ** The extraction of the generated-script copy
    ([_extract_top_peak_ranges] in [templates/ftir_template.py])

    The inner functions [_nearest_local_min_left],
    [_nearest_local_min_right] and [_interp_x_at_level] of the copy are
    the library ones word for word, and the body of its candidate loop is
    the body of the library loop with [_half_prominence_width] written
    out; [candidate] and [collect] stand for them.  The smoother
    ([template_smooth]) and the local-maximum loop differ and are
    modelled on their own. *)

(** The loop of the copy's [_local_maxima_indices] over the indices that
    are left. *)
Fixpoint template_maxima_loop (arr : list Q) (range : list nat)
  : result (list nat) :=
  match range with
  | [] => Ok []
  | i :: rest =>
      a <- get arr i ;;
      l <- get arr (i - 1) ;;
      keep <- (if Qle_bool l a then
                 r <- get arr (i + 1) ;;
                 Ok (Qle_bool r a && (Qlt_bool l a || Qlt_bool r a))
               else Ok false) ;;
      out <- template_maxima_loop arr rest ;;
      Ok (if keep then i :: out else out)
  end.

Definition template_local_maxima_indices (s : list Q) : result (list nat) :=
  if (length s <? 3)%nat then Ok []
  else template_maxima_loop s (seq 1 (length s - 2)).

(** The inner [_extract(kind, signal)]; [xa] is the column [x] of the
    frame and [top_n] the argument of the enclosing function. *)
Definition template_extract (xa : list Q) (top_n : Z) (kind : Kind)
    (signal : list Q) : result (list PeakRange) :=
  let s := template_smooth signal 7 in
  let arr := s in
  peak_is <- template_local_maxima_indices s ;;
  if (length peak_is =? 0)%nat then Ok []
  else
    span <- (if negb (length arr =? 0)%nat
             then hi <- nanmax arr ;; lo <- nanmin arr ;; Ok (hi - lo)
             else Ok 0) ;;
    let min_prom := if Qlt_bool 0 span then span * (1 # 100) else 0 in
    candidates <- collect xa arr min_prom kind peak_is ;;
    let candidates := sort_desc candidates in
    Ok (map snd (firstn (Z.to_nat (Z.max 0 top_n)) candidates)).

(** [_extract_top_peak_ranges], from the frame [df] on: the rows of [df]
    are the pairs (x, y) that are left after [to_numeric] and [dropna],
    taken to be finite. *)
Definition _extract_top_peak_ranges (df : list (Q * Q)) (top_n : Z)
  : result (list Payload.Entry) :=
  if (length df <? 3)%nat then Ok []
  else
    let xa := map fst df in
    let ys := map snd df in
    peaks_max <- template_extract xa top_n KMax ys ;;
    peaks_min <- template_extract xa top_n KMin (map Qopp ys) ;;
    let score_max := py_sum (map prominence peaks_max) in
    let score_min := py_sum (map prominence peaks_min) in
    let peaks :=
      if Qlt_bool score_max score_min then peaks_min else peaks_max in
    Ok (map peak_payload_entry peaks).

(** A record [p] is explained by the smoothed signal [ss]: it belongs to
    a strict local maximum [i] of [ss], its center is [x[i]], and its
    prominence is the height of [ss[i]] above the higher of the two
    flanking samples [L] and [R], each the nearest local minimum on its
    side or the boundary sample. *)
Definition explained_by (x ss : list Q) (p : PeakRange) : Prop :=
  exists i L R,
    strict_local_max ss i /\ (L < i < R)%nat /\ (R < length ss)%nat /\
    (L = 0%nat \/ local_min ss L) /\
    (forall k, (L < k < i)%nat -> ~ local_min ss k) /\
    (R = (length ss - 1)%nat \/ local_min ss R) /\
    (forall k, (i < k < R)%nat -> ~ local_min ss k) /\
    center p = at_ x i /\
    prominence p = at_ ss i - py_max (at_ ss L) (at_ ss R).

(** ** The backend spectroscopy template
    ([backend/modules/data_processor/templates/spectroscopy.py])

    Its [_smooth] is the library routine word for word; [_smooth] above
    stands for it. *)

(** [a[lo:hi]] for [0 <= lo]. *)
Definition slice (a : list Q) (lo hi : nat) : list Q :=
  firstn (hi - lo) (skipn lo a).

Module Detected.

Record Peak : Type := mkPeak {
  position : Q;
  intensity : Q;
  prominence : Q
}.

End Detected.

(** The [for i in range(1, len(y_smooth) - 1)] loop of [_detect_peaks]
    over the indices that are left. *)
Fixpoint detect_loop (x y y_smooth : list Q) (min_prominence : Q)
    (range : list nat) : result (list Detected.Peak) :=
  match range with
  | [] => Ok []
  | i :: rest =>
      a <- get y_smooth i ;;
      l <- get y_smooth (i - 1) ;;
      if Qlt_bool l a then
        r <- get y_smooth (i + 1) ;;
        if Qlt_bool r a then
          left_min <- nanmin (slice y_smooth (i - 10) i) ;;
          right_min <- nanmin (slice y_smooth (i + 1)
                                 (Nat.min (length y_smooth) (i + 11))) ;;
          let prominence := a - py_min left_min right_min in
          if Qle_bool min_prominence prominence then
            px <- get x i ;;
            py <- get y i ;;
            peaks <- detect_loop x y y_smooth min_prominence rest ;;
            Ok (Detected.mkPeak px py prominence :: peaks)
          else detect_loop x y y_smooth min_prominence rest
        else detect_loop x y y_smooth min_prominence rest
      else detect_loop x y y_smooth min_prominence rest
  end.

Definition _detect_peaks (x y : list Q) (threshold : Q)
  : result (list Detected.Peak) :=
  let y_smooth := _smooth y 5 in
  hi <- nanmax y_smooth ;;
  lo <- nanmin y_smooth ;;
  let y_range := hi - lo in
  let min_prominence := y_range * threshold in
  peaks <- detect_loop x y y_smooth min_prominence
             (seq 1 (length y_smooth - 2)) ;;
  let peaks :=
    map snd (sort_desc (map (fun p => (Detected.intensity p, p)) peaks)) in
  Ok (firstn 10 peaks).

(** A peak that [_detect_peaks] may report. *)
Definition detected_peak (x y y_smooth : list Q) (min_prominence : Q)
    (p : Detected.Peak) : Prop :=
  exists i,
    strict_peak y_smooth i /\
    Detected.position p = at_ x i /\ Detected.intensity p = at_ y i /\
    min_prominence <= Detected.prominence p.

(** ** The engine over binary64

    The definitions above compute with exact rationals.  The ones of this
    module compute as the interpreter does, in IEEE 754 binary64 with
    rounding to nearest even, overflow to an infinity and NaN
    ([SpecFloat], precision 53, exponent bound 1024).  They are the
    routines of [core/spectrum/peaks.py] once more, line by line. *)
Module F64.

Definition float : Type := spec_float.

Definition prec : Z := 53.
Definition emax : Z := 1024.

Definition add : float -> float -> float := SFadd prec emax.
Definition sub : float -> float -> float := SFsub prec emax.
Definition mul : float -> float -> float := SFmul prec emax.
Definition div : float -> float -> float := SFdiv prec emax.
Definition opp : float -> float := SFopp.

(** [a < b], [a <= b] and [a == b]; each of them is false when an operand
    is NaN. *)
Definition ltb : float -> float -> bool := SFltb.
Definition leb : float -> float -> bool := SFleb.
Definition eqb : float -> float -> bool := SFeqb.

(** [float(z)] for an integer [z], and the power of two [2.0 ** e]. *)
Definition of_Z (z : Z) : float := binary_normalize prec emax z 0 false.
Definition pow2 (e : Z) : float := SFldexp prec emax (of_Z 1) e.

Definition zero : float := S754_zero false.
Definition nan : float := S754_nan.

Definition isnan (v : float) : bool :=
  match v with S754_nan => true | _ => false end.

(** [np.isfinite] *)
Definition isfinite (v : float) : bool :=
  match v with S754_zero _ | S754_finite _ _ _ => true | _ => false end.

Definition is_zero (v : float) : bool :=
  match v with S754_zero _ => true | _ => false end.

(** [a / b] on Python floats: a zero divisor raises. *)
Definition truediv (a b : float) : result float :=
  if is_zero b then Raise ZeroDivisionError else Ok (div a b).

(** Python's builtin [max(a, b)] and [min(a, b)]: the first argument is
    kept unless [b > a] ([b < a]) holds, so also when one of them is
    NaN. *)
Definition py_max (a b : float) : float := if ltb a b then b else a.
Definition py_min (a b : float) : float := if ltb b a then b else a.

(** [sum(...)] of Python: left to right, starting from [0]. *)
Definition py_sum (l : list float) : float := fold_left add l zero.

Definition get (a : list float) (i : nat) : result float :=
  match nth_error a i with
  | Some v => Ok v
  | None => Raise IndexError
  end.

(** [np.nanmax] and [np.nanmin]: NaN samples are passed over; an array
    of NaN only gives NaN. *)
Definition fmax (a b : float) : float :=
  if isnan a then b else if isnan b then a else if ltb a b then b else a.
Definition fmin (a b : float) : float :=
  if isnan a then b else if isnan b then a else if ltb b a then b else a.

Definition nanmax (a : list float) : result float :=
  match a with
  | [] => Raise ValueError
  | v :: a' => Ok (fold_left fmax a' v)
  end.

Definition nanmin (a : list float) : result float :=
  match a with
  | [] => Raise ValueError
  | v :: a' => Ok (fold_left fmin a' v)
  end.

Record PeakRange : Type := mkPeakRange {
  kind : Kind;
  left : float;
  center : float;
  right : float;
  prominence : float
}.

Definition _local_maxima_indices (s : list float) : list nat :=
  if (length s <? 3)%nat then []
  else
    let left := firstn (length s - 2) s in
    let mid := firstn (length s - 2) (skipn 1 s) in
    let right := skipn 2 s in
    let mask :=
      map (fun t : float * (float * float) =>
             let '(l, (m, r)) := t in
             leb l m && leb r m && (ltb l m || ltb r m))
          (combine left (combine mid right)) in
    map S (nonzero mask).

Fixpoint left_walk (s : list float) (j : nat) : result nat :=
  match j with
  | O => Ok 0%nat
  | S j' =>
      sj <- get s j ;;
      sl <- get s j' ;;
      if leb sj sl then
        sr <- get s (S j) ;;
        if leb sj sr then Ok j else left_walk s j'
      else left_walk s j'
  end.

Definition _nearest_local_min_left (s : list float) (i : nat) : result nat :=
  left_walk s (i - 1).

Fixpoint right_walk (fuel : nat) (s : list float) (j : nat) : result nat :=
  match fuel with
  | O => OutOfFuel
  | S fuel' =>
      if (j <? length s - 1)%nat then
        sj <- get s j ;;
        sl <- get s (j - 1) ;;
        if leb sj sl then
          sr <- get s (S j) ;;
          if leb sj sr then Ok j else right_walk fuel' s (S j)
        else right_walk fuel' s (S j)
      else Ok (length s - 1)%nat
  end.

Definition _nearest_local_min_right (s : list float) (i : nat) : result nat :=
  right_walk (S (length s)) s (i + 1).

Definition _interp_x_at_level (x s : list float) (i0 i1 : nat)
    (level : float) : result float :=
  x0 <- get x i0 ;;
  x1 <- get x i1 ;;
  y0 <- get s i0 ;;
  y1 <- get s i1 ;;
  if eqb y0 y1 then Ok x0
  else
    t <- truediv (sub level y0) (sub y1 y0) ;;
    Ok (add x0 (mul t (sub x1 x0))).

Fixpoint width_walk_left (s : list float) (left_min_i : nat) (level : float)
    (li : nat) : result nat :=
  match li with
  | O => Ok 0%nat
  | S li' =>
      if (left_min_i <? li)%nat then
        v <- get s li ;;
        if ltb level v then width_walk_left s left_min_i level li'
        else Ok li
      else Ok li
  end.

Fixpoint width_walk_right (fuel : nat) (s : list float) (right_min_i : nat)
    (level : float) (ri : nat) : result nat :=
  match fuel with
  | O => OutOfFuel
  | S fuel' =>
      if (ri <? right_min_i)%nat then
        v <- get s ri ;;
        if ltb level v
        then width_walk_right fuel' s right_min_i level (S ri)
        else Ok ri
      else Ok ri
  end.

Definition _half_prominence_width (x s : list float)
    (peak_i left_min_i right_min_i : nat) (baseline prominence : float)
  : result (float * float) :=
  let level := add baseline (mul (pow2 (-1)) prominence) in
  li <- width_walk_left s left_min_i level peak_i ;;
  left_x <- (if (li =? peak_i)%nat then get x peak_i
             else _interp_x_at_level x s li (li + 1) level) ;;
  ri <- width_walk_right (S (length s)) s right_min_i level peak_i ;;
  right_x <- (if (ri =? peak_i)%nat then get x peak_i
              else _interp_x_at_level x s (ri - 1) ri level) ;;
  Ok (left_x, right_x).

Definition candidate (x ss : list float) (min_prominence : float)
    (kind : Kind) (peak_i : nat) : result (option (float * PeakRange)) :=
  left_min_i <- _nearest_local_min_left ss peak_i ;;
  right_min_i <- _nearest_local_min_right ss peak_i ;;
  sl <- get ss left_min_i ;;
  sr <- get ss right_min_i ;;
  let baseline := py_max sl sr in
  sp <- get ss peak_i ;;
  let prominence := sub sp baseline in
  if leb prominence zero || ltb prominence min_prominence then Ok None
  else
    lr <- _half_prominence_width x ss peak_i left_min_i right_min_i
            baseline prominence ;;
    let '(left_x, right_x) := lr in
    center <- get x peak_i ;;
    let lo := py_min left_x right_x in
    let hi := py_max left_x right_x in
    let pr := mkPeakRange kind lo center hi prominence in
    Ok (Some (prominence, pr)).

Fixpoint collect (x ss : list float) (min_prominence : float) (kind : Kind)
    (peak_indices : list nat) : result (list (float * PeakRange)) :=
  match peak_indices with
  | [] => Ok []
  | peak_i :: rest =>
      c <- candidate x ss min_prominence kind peak_i ;;
      cs <- collect x ss min_prominence kind rest ;;
      Ok (match c with Some t => t :: cs | None => cs end)
  end.

(** The stable sort by decreasing key, for keys without NaN. *)
Fixpoint insert_desc {A : Type} (t : float * A) (l : list (float * A))
  : list (float * A) :=
  match l with
  | [] => [t]
  | u :: l' =>
      if ltb (fst t) (fst u) then u :: insert_desc t l' else t :: l
  end.

Fixpoint sort_desc {A : Type} (l : list (float * A)) : list (float * A) :=
  match l with
  | [] => []
  | t :: l' => insert_desc t (sort_desc l')
  end.

Section Engine.

(** [np.convolve(a, v, mode="same")] is NumPy's: in which order it adds
    the rounded products is not fixed by the repository, so it is a
    parameter here. *)
Variable np_convolve_same : list float -> list float -> list float.

Definition _smooth (y : list float) (window : Z) : list float :=
  if (window <=? 1)%Z then y
  else
    let w := window in
    let w := if (w mod 2 =? 0)%Z then (w + 1)%Z else w in
    if (Z.of_nat (length y) <? w)%Z then y
    else
      let kernel :=
        map (fun o => div o (of_Z w)) (repeat (of_Z 1) (Z.to_nat w)) in
      np_convolve_same y kernel.

Definition _extract_peaks_from_signal (x s : list float) (top_n : Z)
    (smooth_window : Z) (min_prominence_ratio : float) (kind : Kind)
  : result (list PeakRange) :=
  let ss := _smooth s smooth_window in
  let peak_indices := _local_maxima_indices ss in
  if (length peak_indices =? 0)%nat then Ok []
  else
    global_span <- (if existsb isfinite ss
                    then hi <- nanmax ss ;; lo <- nanmin ss ;; Ok (sub hi lo)
                    else Ok zero) ;;
    let min_prominence :=
      if ltb zero global_span then mul global_span min_prominence_ratio
      else zero in
    candidates <- collect x ss min_prominence kind peak_indices ;;
    let candidates := sort_desc candidates in
    Ok (map snd (firstn (Z.to_nat (Z.max 0 top_n)) candidates)).

Definition extract_top_peaks (x y : list float) (top_n : Z) (mode : Mode)
    (smooth_window : Z) (min_prominence_ratio : float)
  : result (list PeakRange) :=
  if negb (length x =? length y)%nat || (length x <? 3)%nat then Ok []
  else
    let mask := map (fun t => isfinite (fst t) && isfinite (snd t))
                    (combine x y) in
    let x_arr := select mask x in
    let y_arr := select mask y in
    if (length x_arr <? 3)%nat then Ok []
    else
      match mode with
      | Max =>
          _extract_peaks_from_signal x_arr y_arr top_n smooth_window
            min_prominence_ratio KMax
      | Min =>
          _extract_peaks_from_signal x_arr (map opp y_arr) top_n
            smooth_window min_prominence_ratio KMin
      | Auto =>
          peaks_max <- _extract_peaks_from_signal x_arr y_arr top_n
                         smooth_window min_prominence_ratio KMax ;;
          peaks_min <- _extract_peaks_from_signal x_arr (map opp y_arr)
                         top_n smooth_window min_prominence_ratio KMin ;;
          let score_max := py_sum (map prominence peaks_max) in
          let score_min := py_sum (map prominence peaks_min) in
          Ok (if ltb score_max score_min then peaks_min else peaks_max)
      end.

End Engine.

(** The default [min_prominence_ratio], the float [0.01]. *)
Definition default_min_prominence_ratio : float := div (of_Z 1) (of_Z 100).

(** [s[i]] as a total function, for indices known to be in range. *)
Definition at_ (s : list float) (i : nat) : float := nth i s nan.

(** No sample of the array is NaN. *)
Definition no_nan (s : list float) : Prop :=
  Forall (fun v => isnan v = false) s.

(** [i] is an interior sample strictly above both of its neighbours. *)
Definition strict_peak (s : list float) (i : nat) : Prop :=
  (1 <= i)%nat /\ (i + 2 <= length s)%nat /\
  ltb (at_ s (i - 1)) (at_ s i) = true /\
  ltb (at_ s (i + 1)) (at_ s i) = true.

End F64.

(** ** The quick peak finder ([utils/peak_finder.py])

    [find_peaks] takes the two arrays as they are handed in: nothing is
    masked, so a sample may be an infinity or NaN. *)
Module PeakFinder.

Record Peak : Type := mkPeak {
  x : F64.float;
  y : F64.float;
  index : nat
}.

(** The [for i in range(1, len(y) - 1)] loop, over the indices that are
    left, with the current [last_idx]. *)
Fixpoint scan (x y : list F64.float) (min_prominence : option F64.float)
    (min_distance : Z) (last_idx : Z) (range : list nat)
  : result (list Peak) :=
  match range with
  | [] => Ok []
  | i :: rest =>
      if (Z.of_nat i - last_idx <? min_distance)%Z
      then scan x y min_prominence min_distance last_idx rest
      else
        yi <- F64.get y i ;;
        yl <- F64.get y (i - 1) ;;
        if F64.leb yi yl
        then scan x y min_prominence min_distance last_idx rest
        else
          yr <- F64.get y (i + 1) ;;
          if F64.leb yi yr
          then scan x y min_prominence min_distance last_idx rest
          else
            if match min_prominence with
               | Some m =>
                   let baseline := F64.py_max yl yr in
                   F64.ltb (F64.sub yi baseline) m
               | None => false
               end
            then scan x y min_prominence min_distance last_idx rest
            else
              xi <- F64.get x i ;;
              peaks <- scan x y min_prominence min_distance (Z.of_nat i)
                         rest ;;
              Ok (mkPeak xi yi i :: peaks)
  end.

Definition find_peaks (x y : list F64.float)
    (min_prominence : option F64.float) (min_distance : Z)
  : result (list Peak) :=
  if (length x =? 0)%nat || (length y =? 0)%nat
     || negb (length x =? length y)%nat
  then Ok []
  else
    let min_distance := if (min_distance <? 1)%Z then 1%Z else min_distance in
    let last_idx := (- min_distance)%Z in
    scan x y min_prominence min_distance last_idx (seq 1 (length y - 2)).

End PeakFinder.

(** A peak that [find_peaks] may report for the arrays [x], [y]: an
    interior sample [i] for which neither [y[i] <= y[i-1]] nor
    [y[i] <= y[i+1]] holds (so a sample strictly above both neighbours
    when the array has no NaN), with the x and y of that sample, and for
    which [y[i] - max(y[i-1], y[i+1]) < min_prominence] does not hold
    when a threshold is given. *)
Definition reported_peak (x y : list F64.float)
    (min_prominence : option F64.float) (p : PeakFinder.Peak) : Prop :=
  let i := PeakFinder.index p in
  (1 <= i)%nat /\ (i + 2 <= length y)%nat /\
  F64.leb (F64.at_ y i) (F64.at_ y (i - 1)) = false /\
  F64.leb (F64.at_ y i) (F64.at_ y (i + 1)) = false /\
  (F64.no_nan y -> F64.strict_peak y i) /\
  PeakFinder.x p = F64.at_ x i /\
  PeakFinder.y p = F64.at_ y i /\
  forall m, min_prominence = Some m ->
    F64.ltb (F64.sub (F64.at_ y i)
               (F64.py_max (F64.at_ y (i - 1)) (F64.at_ y (i + 1)))) m
    = false.

(** Indices in increasing order, any two at least [d] apart. *)
Definition spaced (d : Z) (l : list nat) : Prop :=
  StronglySorted (fun i j => (Z.of_nat i + d <= Z.of_nat j)%Z) l.

(** ** The waterfall offset of the generated script
    ([templates/ftir_template.py]) *)

(** [sorted(values)]: a stable sort in ascending order, for values
    without NaN.  [insert_asc v l] puts [v] in front of the first element
    that is not smaller. *)
Fixpoint insert_asc (v : F64.float) (l : list F64.float) : list F64.float :=
  match l with
  | [] => [v]
  | u :: l' => if F64.ltb u v then u :: insert_asc v l' else v :: l
  end.

Fixpoint py_sorted (l : list F64.float) : list F64.float :=
  match l with
  | [] => []
  | v :: l' => insert_asc v (py_sorted l')
  end.

Definition _median (values : list F64.float) : result F64.float :=
  if (length values =? 0)%nat then Ok F64.zero
  else
    let arr := py_sorted values in
    let mid := (length arr / 2)%nat in
    if (length arr mod 2 =? 1)%nat then F64.get arr mid
    else
      a <- F64.get arr (mid - 1) ;;
      b <- F64.get arr mid ;;
      F64.truediv (F64.add a b) (F64.of_Z 2).

(** [y.max()] and [y.min()] of a pandas series: NaN samples are passed
    over, and a series without a number gives NaN. *)
Definition series_max (y : list F64.float) : F64.float :=
  fold_left F64.fmax y F64.nan.
Definition series_min (y : list F64.float) : F64.float :=
  fold_left F64.fmin y F64.nan.

(** The list [spans] that [_compute_offset_value] collects: the span
    [max - min] of every series that has a positive one. *)
Fixpoint positive_spans {L : Type}
    (loaded : list (L * list F64.float * list F64.float))
  : list F64.float :=
  match loaded with
  | [] => []
  | (_, _, y) :: rest =>
      let span := F64.sub (series_max y) (series_min y) in
      if F64.ltb F64.zero span then span :: positive_spans rest
      else positive_spans rest
  end.

(** [OFFSET_PERCENT] is an integer that the script generator fills in
    (the value of a slider from 0 to 100). *)
Definition _compute_offset_value {L : Type} (OFFSET_PERCENT : Z)
    (loaded : list (L * list F64.float * list F64.float))
  : result F64.float :=
  reference_span <- _median (positive_spans loaded) ;;
  ratio <- F64.truediv (F64.of_Z OFFSET_PERCENT) (F64.of_Z 100) ;;
  Ok (F64.mul reference_span ratio).

(** How many of the values are at most, and at least, [m]. *)
Definition count_le (m : F64.float) (values : list F64.float) : nat :=
  length (filter (fun v => F64.leb v m) values).
Definition count_ge (m : F64.float) (values : list F64.float) : nat :=
  length (filter (fun v => F64.leb m v) values).

(** A list of floats in non-decreasing order. *)
Definition ascending (l : list F64.float) : Prop :=
  StronglySorted (fun a b => F64.leb a b = true) l.

(** A number that is not negative: a zero, a positive number or
    [+inf]; NaN has no sign. *)
Definition signless (v : F64.float) : Prop :=
  match v with
  | S754_nan => True
  | S754_zero _ => True
  | S754_infinity s | S754_finite s _ _ => s = false
  end.

(** A finite input on which the interpolation overflows:
    x = [0, -2^1023, 2^1023, 0, 0], y = [0, 1, 2, 1, 0]. *)
Definition overflow_x : list F64.float :=
  [F64.zero; F64.opp (F64.pow2 1023); F64.pow2 1023; F64.zero; F64.zero].
Definition overflow_y : list F64.float :=
  [F64.zero; F64.of_Z 1; F64.of_Z 2; F64.of_Z 1; F64.zero].

(** * Properties *)

(** ** Comparisons and array access *)

Lemma Qlt_bool_iff (a b : Q) : Qlt_bool a b = true <-> a < b.
Proof.
  unfold Qlt_bool. rewrite negb_true_iff. split; intro H.
  - apply Qnot_le_lt. intro Hle. apply Qle_bool_iff in Hle. congruence.
  - destruct (Qle_bool b a) eqn:E; [|reflexivity].
    apply Qle_bool_iff in E. exfalso. exact (Qlt_not_le _ _ H E).
Qed.

Lemma Qlt_bool_false_iff (a b : Q) : Qlt_bool a b = false <-> b <= a.
Proof.
  unfold Qlt_bool. rewrite negb_false_iff. apply Qle_bool_iff.
Qed.

Lemma Qle_bool_false_iff (a b : Q) : Qle_bool a b = false <-> b < a.
Proof.
  rewrite <- Qlt_bool_iff. unfold Qlt_bool.
  destruct (Qle_bool a b); simpl; split; congruence.
Qed.

Lemma py_min_le_py_max (a b : Q) : py_min a b <= py_max a b.
Proof.
  unfold py_min, py_max.
  destruct (Qlt_bool b a) eqn:E1, (Qlt_bool a b) eqn:E2.
  - apply Qle_refl.
  - apply Qlt_le_weak, Qlt_bool_iff, E1.
  - apply Qlt_le_weak, Qlt_bool_iff, E2.
  - apply Qle_refl.
Qed.

Lemma get_in_range (a : list Q) (i : nat) :
  (i < length a)%nat -> get a i = Ok (at_ a i).
Proof.
  intro H. unfold get, at_.
  rewrite (nth_error_nth' a 0 H). reflexivity.
Qed.

Lemma get_Ok_inv (a : list Q) (i : nat) (v : Q) :
  get a i = Ok v -> (i < length a)%nat /\ v = at_ a i.
Proof.
  unfold get. destruct (nth_error a i) eqn:E; [|discriminate].
  intro H. injection H as <-. split.
  - apply nth_error_Some. congruence.
  - unfold at_. symmetry. apply nth_error_nth. exact E.
Qed.

(** ** The local-extremum finder *)

Lemma nonzero_from_spec (mask : list bool) (k i : nat) :
  In i (nonzero_from k mask) <->
  (k <= i)%nat /\ nth (i - k) mask false = true.
Proof.
  revert k. induction mask as [|b mask IH]; intro k; simpl.
  - split; [tauto|]. intros [_ H]. destruct (i - k)%nat; discriminate.
  - assert (Hstep : In i (nonzero_from (S k) mask) <->
                    (k < i)%nat /\ nth (i - k) (b :: mask) false = true).
    { rewrite IH. split; intros [H1 H2]; split; try lia.
      - replace (i - k)%nat with (S (i - S k)) by lia. exact H2.
      - replace (i - k)%nat with (S (i - S k)) in H2 by lia. exact H2. }
    destruct b; simpl In; rewrite ?Hstep.
    + split.
      * intros [<- | [H1 H2]].
        -- split; [lia|]. now rewrite Nat.sub_diag.
        -- split; [lia|exact H2].
      * intros [H1 H2]. destruct (Nat.eq_dec k i) as [->|Hne]; [now left|].
        right. split; [lia|exact H2].
    + split.
      * intros [H1 H2]. split; [lia|exact H2].
      * intros [H1 H2]. destruct (Nat.eq_dec k i) as [->|Hne].
        -- rewrite Nat.sub_diag in H2. discriminate.
        -- split; [lia|exact H2].
Qed.

Lemma nonzero_from_lower (mask : list bool) (k : nat) :
  Forall (fun i => (k <= i)%nat) (nonzero_from k mask).
Proof.
  apply Forall_forall. intros i Hi. apply nonzero_from_spec in Hi. tauto.
Qed.

Lemma nonzero_from_sorted (mask : list bool) (k : nat) :
  StronglySorted lt (nonzero_from k mask).
Proof.
  revert k. induction mask as [|b mask IH]; intro k; simpl.
  - constructor.
  - destruct b; [|apply IH]. constructor; [apply IH|].
    eapply Forall_impl; [|apply nonzero_from_lower]. simpl. intros; lia.
Qed.

Lemma StronglySorted_map_S (l : list nat) :
  StronglySorted lt l -> StronglySorted lt (map S l).
Proof.
  induction 1 as [|a l Hs IH Hall]; simpl; constructor; auto.
  apply Forall_map. eapply Forall_impl; [|exact Hall]. simpl. intros; lia.
Qed.

Lemma nth_combine {A B : Type} (l : list A) (l' : list B) (i : nat)
    (a : A) (b : B) :
  (i < length l)%nat -> (i < length l')%nat ->
  nth i (combine l l') (a, b) = (nth i l a, nth i l' b).
Proof.
  revert l' i. induction l as [|u l IH]; intros [|v l'] [|i]; simpl;
    intros H1 H2; try lia; auto.
  apply IH; lia.
Qed.

Lemma nth_firstn_lt {A : Type} (l : list A) (n i : nat) (d : A) :
  (i < n)%nat -> nth i (firstn n l) d = nth i l d.
Proof.
  revert n i. induction l as [|u l IH]; intros [|n] [|i] H; simpl;
    try lia; auto.
  apply IH. lia.
Qed.

Lemma nth_skipn_add {A : Type} (l : list A) (n i : nat) (d : A) :
  nth i (skipn n l) d = nth (n + i) l d.
Proof.
  revert l. induction n as [|n IH]; intros [|u l]; simpl; auto.
  destruct i; reflexivity.
Qed.

(** The mask of [_local_maxima_indices] at position [j] decides whether
    sample [j + 1] is a strict local maximum. *)
Lemma local_maxima_mask_nth (s : list Q) (j : nat) :
  (j + 2 < length s)%nat ->
  nth j
    (map (fun t : Q * (Q * Q) =>
            let '(l, (m, r)) := t in
            Qle_bool l m && Qle_bool r m && (Qlt_bool l m || Qlt_bool r m))
       (combine (firstn (length s - 2) s)
          (combine (firstn (length s - 2) (skipn 1 s)) (skipn 2 s))))
    false
  = Qle_bool (at_ s j) (at_ s (j + 1)) && Qle_bool (at_ s (j + 2)) (at_ s (j + 1))
    && (Qlt_bool (at_ s j) (at_ s (j + 1))
        || Qlt_bool (at_ s (j + 2)) (at_ s (j + 1))).
Proof.
  intro H.
  set (f := fun t : Q * (Q * Q) => _).
  assert (Hl1 : length (firstn (length s - 2) s) = (length s - 2)%nat).
  { rewrite length_firstn. lia. }
  assert (Hl2 : length (firstn (length s - 2) (skipn 1 s)) = (length s - 2)%nat).
  { rewrite length_firstn, length_skipn. lia. }
  assert (Hl3 : length (skipn 2 s) = (length s - 2)%nat).
  { rewrite length_skipn. lia. }
  assert (Hlc : length (combine (firstn (length s - 2) (skipn 1 s)) (skipn 2 s))
                = (length s - 2)%nat).
  { rewrite length_combine. lia. }
  rewrite (nth_indep _ false (f (0, (0, 0)))).
  2:{ rewrite length_map, length_combine. lia. }
  rewrite map_nth.
  rewrite nth_combine by lia.
  rewrite nth_combine by lia.
  rewrite !nth_firstn_lt by lia.
  rewrite !nth_skipn_add.
  unfold f, at_. simpl.
  replace (j + 1)%nat with (S j) by lia.
  replace (j + 2)%nat with (S (S j)) by lia.
  reflexivity.
Qed.

Lemma local_maxima_In (s : list Q) (i : nat) :
  In i (_local_maxima_indices s) <-> strict_local_max s i.
Proof.
  unfold _local_maxima_indices, strict_local_max.
  destruct (length s <? 3)%nat eqn:E.
  - apply Nat.ltb_lt in E. simpl. split; [tauto|]. intros; lia.
  - apply Nat.ltb_ge in E. rewrite in_map_iff. unfold nonzero. split.
    + intros [j [<- Hj]]. apply nonzero_from_spec in Hj.
      destruct Hj as [_ Hj]. rewrite Nat.sub_0_r in Hj.
      destruct (Nat.lt_ge_cases (j + 2) (length s)) as [Hlt|Hge].
      * rewrite local_maxima_mask_nth in Hj by exact Hlt.
        apply andb_true_iff in Hj. destruct Hj as [Hj H3].
        apply andb_true_iff in Hj. destruct Hj as [H1 H2].
        apply Qle_bool_iff in H1. apply Qle_bool_iff in H2.
        apply orb_true_iff in H3.
        replace (S j - 1)%nat with j by lia.
        replace (S j + 1)%nat with (j + 2)%nat by lia.
        replace (S j) with (j + 1)%nat by lia.
        repeat split; try lia; auto.
        destruct H3 as [H3|H3]; apply Qlt_bool_iff in H3; auto.
      * rewrite nth_overflow in Hj; [discriminate|].
        rewrite length_map, !length_combine, !length_firstn, !length_skipn. lia.
    + intros (H1 & H2 & H3 & H4 & H5).
      exists (i - 1)%nat. split; [lia|].
      apply nonzero_from_spec. split; [lia|]. rewrite Nat.sub_0_r.
      rewrite local_maxima_mask_nth by lia.
      replace (i - 1 + 1)%nat with i by lia.
      replace (i - 1 + 2)%nat with (i + 1)%nat by lia.
      apply andb_true_iff. split; [apply andb_true_iff; split|].
      * apply Qle_bool_iff. exact H3.
      * apply Qle_bool_iff. exact H4.
      * apply orb_true_iff.
        destruct H5 as [H5|H5]; [left|right]; apply Qlt_bool_iff; exact H5.
Qed.

Lemma local_maxima_sorted (s : list Q) :
  StronglySorted lt (_local_maxima_indices s).
Proof.
  unfold _local_maxima_indices.
  destruct (length s <? 3)%nat; [constructor|].
  apply StronglySorted_map_S, nonzero_from_sorted.
Qed.

(** C8.  The local-extremum finder returns, in increasing order and
    without repetition, exactly the interior indices [i] (1 <= i <= n-2)
    with [s[i] >= s[i-1]], [s[i] >= s[i+1]] and one of the two comparisons
    strict; for fewer than three samples it returns no index. *)
Theorem local_maxima_indices_exact (s : list Q) :
  (forall i, In i (_local_maxima_indices s) <-> strict_local_max s i) /\
  StronglySorted lt (_local_maxima_indices s) /\
  ((length s < 3)%nat -> _local_maxima_indices s = []).
Proof.
  split; [|split].
  - intro i. apply local_maxima_In.
  - apply local_maxima_sorted.
  - intro H. unfold _local_maxima_indices.
    apply Nat.ltb_lt in H. now rewrite H.
Qed.

Lemma local_maxima_indices_exact_witness :
  strict_local_max [1; 3; 3; 2] 2 /\ _local_maxima_indices [5; 7] = [].
Proof.
  split.
  - apply (proj1 (local_maxima_indices_exact [1; 3; 3; 2])).
    vm_compute. auto.
  - apply (proj2 (proj2 (local_maxima_indices_exact [5; 7]))).
    simpl. lia.
Defined.

(** ** The flanking-minimum walks *)

Lemma local_min_dec (s : list Q) (j : nat) :
  (Qle_bool (at_ s j) (at_ s (j - 1)) && Qle_bool (at_ s j) (at_ s (j + 1)))
  = true <-> local_min s j.
Proof.
  unfold local_min. rewrite andb_true_iff, !Qle_bool_iff. tauto.
Qed.

Lemma left_walk_spec (s : list Q) (j : nat) :
  (j + 1 < length s)%nat ->
  exists L, left_walk s j = Ok L /\ (L <= j)%nat /\
    (L = 0%nat \/ local_min s L) /\
    (forall k, (L < k <= j)%nat -> ~ local_min s k).
Proof.
  induction j as [|j IH]; intro Hj.
  - exists 0%nat. simpl. repeat split; auto. intros; lia.
  - assert (Hstep : (forall L, left_walk s j = Ok L ->
               ~ local_min s (S j) -> (L <= j)%nat ->
               (L = 0%nat \/ local_min s L) ->
               (forall k, (L < k <= j)%nat -> ~ local_min s k) ->
               (L <= S j)%nat /\ (L = 0%nat \/ local_min s L) /\
               (forall k, (L < k <= S j)%nat -> ~ local_min s k))).
    { intros L _ Hn H1 H2 H3. repeat split; auto.
      intros k Hk. destruct (Nat.eq_dec k (S j)) as [->|Hne]; auto.
      apply H3. lia. }
    destruct IH as (L & HL & H1 & H2 & H3); [lia|].
    simpl left_walk.
    rewrite (get_in_range s (i := S j)) by lia.
    rewrite (get_in_range s (i := j)) by lia. simpl bind.
    destruct (Qle_bool (at_ s (S j)) (at_ s j)) eqn:E1.
    + rewrite (get_in_range s (i := S (S j))) by lia. simpl bind.
      destruct (Qle_bool (at_ s (S j)) (at_ s (S (S j)))) eqn:E2.
      * exists (S j). repeat split; auto; [|intros; lia].
        right. apply local_min_dec.
        replace (S j - 1)%nat with j by lia.
        replace (S j + 1)%nat with (S (S j)) by lia.
        now rewrite E1, E2.
      * exists L. split; [exact HL|]. apply Hstep; auto.
        intro Hm. apply local_min_dec in Hm.
        replace (S j + 1)%nat with (S (S j)) in Hm by lia.
        rewrite E2, andb_false_r in Hm. discriminate.
    + exists L. split; [exact HL|]. apply Hstep; auto.
      intro Hm. apply local_min_dec in Hm.
      replace (S j - 1)%nat with j in Hm by lia.
      rewrite E1 in Hm. discriminate.
Qed.

Lemma right_walk_spec (fuel : nat) (s : list Q) (j : nat) :
  (1 <= j)%nat -> (j <= length s - 1)%nat ->
  (length s - 1 - j < fuel)%nat ->
  exists R, right_walk fuel s j = Ok R /\ (j <= R <= length s - 1)%nat /\
    (R = (length s - 1)%nat \/ local_min s R) /\
    (forall k, (j <= k < R)%nat -> ~ local_min s k).
Proof.
  revert j. induction fuel as [|fuel IH]; intros j H1 H2 Hf; [lia|].
  simpl right_walk.
  destruct (j <? length s - 1)%nat eqn:E.
  - apply Nat.ltb_lt in E.
    assert (Hstep : ~ local_min s j ->
              exists R, right_walk fuel s (S j) = Ok R /\
                (j <= R <= length s - 1)%nat /\
                (R = (length s - 1)%nat \/ local_min s R) /\
                (forall k, (j <= k < R)%nat -> ~ local_min s k)).
    { intro Hn. destruct (IH (S j)) as (R & HR & Hb & Hc & Hd); try lia.
      exists R. repeat split; auto; try lia.
      intros k Hk. destruct (Nat.eq_dec k j) as [->|Hne]; auto.
      apply Hd. lia. }
    rewrite (get_in_range s (i := j)) by lia.
    rewrite (get_in_range s (i := (j - 1)%nat)) by lia. simpl bind.
    destruct (Qle_bool (at_ s j) (at_ s (j - 1))) eqn:E1.
    + rewrite (get_in_range s (i := S j)) by lia. simpl bind.
      destruct (Qle_bool (at_ s j) (at_ s (S j))) eqn:E2.
      * exists j. repeat split; auto; try lia.
        right. apply local_min_dec.
        replace (j + 1)%nat with (S j) by lia. now rewrite E1, E2.
      * apply Hstep. intro Hm. apply local_min_dec in Hm.
        replace (j + 1)%nat with (S j) in Hm by lia.
        rewrite E2, andb_false_r in Hm. discriminate.
    + apply Hstep. intro Hm. apply local_min_dec in Hm.
      rewrite E1 in Hm. discriminate.
  - apply Nat.ltb_ge in E. exists (length s - 1)%nat.
    repeat split; auto; try lia.
Qed.

Lemma nearest_local_min_left_spec (s : list Q) (i : nat) :
  (1 <= i)%nat -> (i < length s)%nat ->
  exists L, _nearest_local_min_left s i = Ok L /\ (L < i)%nat /\
    (L = 0%nat \/ local_min s L) /\
    (forall k, (L < k < i)%nat -> ~ local_min s k).
Proof.
  intros H1 H2. unfold _nearest_local_min_left.
  destruct (@left_walk_spec s (i - 1)) as (L & HL & Ha & Hb & Hc); [lia|].
  exists L. repeat split; auto; try lia. intros k Hk. apply Hc. lia.
Qed.

Lemma nearest_local_min_right_spec (s : list Q) (i : nat) :
  (i + 2 <= length s)%nat ->
  exists R, _nearest_local_min_right s i = Ok R /\
    (i < R <= length s - 1)%nat /\
    (R = (length s - 1)%nat \/ local_min s R) /\
    (forall k, (i < k < R)%nat -> ~ local_min s k).
Proof.
  intro H. unfold _nearest_local_min_right.
  destruct (@right_walk_spec (S (length s)) s (i + 1))
    as (R & HR & Ha & Hb & Hc); try lia.
  exists R. repeat split; auto; try lia. intros k Hk. apply Hc. lia.
Qed.

(** C9.  For a candidate index [i] (1 <= i <= n-2) both walks return: the
    left one an index [L] with [0 <= L < i], the right one an index [R]
    with [i < R <= n-1].  [L] is the nearest local minimum to the left of
    [i], or the boundary index 0 when there is none; [R] is the nearest one
    to the right, or the boundary index [n-1]. *)
Theorem flanking_walks_terminate (s : list Q) (i : nat) :
  (1 <= i)%nat -> (i + 2 <= length s)%nat ->
  exists L R,
    _nearest_local_min_left s i = Ok L /\
    _nearest_local_min_right s i = Ok R /\
    (0 <= L < i)%nat /\ (i < R <= length s - 1)%nat /\
    (L = 0%nat \/ local_min s L) /\
    (forall k, (L < k < i)%nat -> ~ local_min s k) /\
    (R = (length s - 1)%nat \/ local_min s R) /\
    (forall k, (i < k < R)%nat -> ~ local_min s k).
Proof.
  intros H1 H2.
  destruct (@nearest_local_min_left_spec s i) as (L & HL & La & Lb & Lc);
    try lia.
  destruct (@nearest_local_min_right_spec s i) as (R & HR & Ra & Rb & Rc);
    try lia.
  exists L, R. repeat split; auto; lia.
Qed.

Lemma flanking_walks_terminate_witness :
  exists L R,
    _nearest_local_min_left [3; 1; 2; 5; 4; 6] 3 = Ok L /\
    _nearest_local_min_right [3; 1; 2; 5; 4; 6] 3 = Ok R /\
    (0 <= L < 3)%nat /\ (3 < R <= length [3; 1; 2; 5; 4; 6] - 1)%nat /\
    (L = 0%nat \/ local_min [3; 1; 2; 5; 4; 6] L) /\
    (forall k, (L < k < 3)%nat -> ~ local_min [3; 1; 2; 5; 4; 6] k) /\
    (R = (length [3; 1; 2; 5; 4; 6] - 1)%nat \/
     local_min [3; 1; 2; 5; 4; 6] R) /\
    (forall k, (3 < k < R)%nat -> ~ local_min [3; 1; 2; 5; 4; 6] k).
Proof.
  apply (@flanking_walks_terminate [3; 1; 2; 5; 4; 6] 3); simpl; lia.
Defined.

(** ** The half-prominence width never fails on a candidate *)

Lemma width_walk_left_spec (s : list Q) (L : nat) (level : Q) (li : nat) :
  (li < length s)%nat ->
  exists r, width_walk_left s L level li = Ok r /\ (r <= li)%nat.
Proof.
  induction li as [|li IH]; intro H.
  - exists 0%nat. split; [reflexivity|lia].
  - simpl. destruct (L <? S li)%nat; [|exists (S li); split; [reflexivity|lia]].
    rewrite (get_in_range s (i := S li)) by lia. simpl bind.
    destruct (Qlt_bool level (at_ s (S li))).
    + destruct IH as (r & Hr & Hle); [lia|]. exists r. split; [exact Hr|lia].
    + exists (S li). split; [reflexivity|lia].
Qed.

Lemma width_walk_right_spec (fuel : nat) (s : list Q) (R : nat) (level : Q)
    (ri : nat) :
  (R < length s)%nat -> (ri <= R)%nat -> (R - ri < fuel)%nat ->
  exists r, width_walk_right fuel s R level ri = Ok r /\ (ri <= r <= R)%nat.
Proof.
  revert ri. induction fuel as [|fuel IH]; intros ri HR Hri Hf; [lia|].
  simpl. destruct (ri <? R)%nat eqn:E.
  - apply Nat.ltb_lt in E.
    rewrite (get_in_range s (i := ri)) by lia. simpl bind.
    destruct (Qlt_bool level (at_ s ri)).
    + destruct (IH (S ri)) as (r & Hr & Hb); try lia.
      exists r. split; [exact Hr|lia].
    + exists ri. split; [reflexivity|lia].
  - exists ri. split; [reflexivity|lia].
Qed.

Lemma interp_x_at_level_returns (x s : list Q) (i0 i1 : nat) (level : Q) :
  length x = length s -> (i0 < length s)%nat -> (i1 < length s)%nat ->
  exists v, _interp_x_at_level x s i0 i1 level = Ok v.
Proof.
  intros Hl H0 H1. unfold _interp_x_at_level.
  rewrite (get_in_range x (i := i0)) by lia.
  rewrite (get_in_range x (i := i1)) by lia.
  rewrite (get_in_range s (i := i0)) by lia.
  rewrite (get_in_range s (i := i1)) by lia. simpl bind.
  destruct (Qeq_bool (at_ s i0) (at_ s i1)); eexists; reflexivity.
Qed.

Lemma half_prominence_width_returns (x s : list Q) (peak_i L R : nat)
    (baseline prom : Q) :
  length x = length s -> (peak_i <= R)%nat -> (R < length s)%nat ->
  exists l r, _half_prominence_width x s peak_i L R baseline prom = Ok (l, r).
Proof.
  intros Hl HR Hn. unfold _half_prominence_width.
  set (level := baseline + (1 # 2) * prom).
  destruct (@width_walk_left_spec s L level peak_i) as (li & Hli & Hle);
    [lia|].
  rewrite Hli. cbn [bind].
  assert (Hleft : exists l,
            (if (li =? peak_i)%nat then get x peak_i
             else _interp_x_at_level x s li (li + 1) level) = Ok l).
  { destruct (li =? peak_i)%nat eqn:E.
    - eexists. apply get_in_range. lia.
    - apply Nat.eqb_neq in E. apply interp_x_at_level_returns; lia. }
  destruct Hleft as (l & ->). cbn [bind].
  destruct (@width_walk_right_spec (S (length s)) s R level peak_i)
    as (ri & Hri & Hb); try lia.
  rewrite Hri. cbn [bind].
  assert (Hright : exists r,
            (if (ri =? peak_i)%nat then get x peak_i
             else _interp_x_at_level x s (ri - 1) ri level) = Ok r).
  { destruct (ri =? peak_i)%nat eqn:E.
    - eexists. apply get_in_range. lia.
    - apply Nat.eqb_neq in E. apply interp_x_at_level_returns; lia. }
  destruct Hright as (r & ->). cbn [bind].
  exists l, r. reflexivity.
Qed.

(** ** One candidate *)

Lemma candidate_spec (x ss : list Q) (mp : Q) (k : Kind) (i : nat) :
  length x = length ss -> (1 <= i)%nat -> (i + 2 <= length ss)%nat ->
  exists c, candidate x ss mp k i = Ok c /\
    forall t, c = Some t ->
      keyed t /\ valid_peak (snd t) /\ kind (snd t) = k /\
      center (snd t) = at_ x i /\ mp <= prominence (snd t).
Proof.
  intros Hl H1 H2. unfold candidate.
  destruct (@nearest_local_min_left_spec ss i) as (L & HL & La & _);
    try lia.
  destruct (@nearest_local_min_right_spec ss i) as (R & HR & Ra & _);
    try lia.
  rewrite HL, HR. simpl bind.
  rewrite (get_in_range ss (i := L)) by lia.
  rewrite (get_in_range ss (i := R)) by lia.
  rewrite (get_in_range ss (i := i)) by lia. simpl bind.
  set (baseline := py_max (at_ ss L) (at_ ss R)).
  set (prom := at_ ss i - baseline).
  destruct (Qle_bool prom 0) eqn:E1; simpl orb.
  { exists None. split; [reflexivity|]. discriminate. }
  destruct (Qlt_bool prom mp) eqn:E2.
  { exists None. split; [reflexivity|]. discriminate. }
  destruct (@half_prominence_width_returns x ss i L R baseline prom)
    as (l & r & Hw); try lia.
  rewrite Hw. simpl bind.
  rewrite (get_in_range x (i := i)) by lia. simpl bind.
  eexists. split; [reflexivity|].
  intros t Ht. injection Ht as <-. unfold keyed, valid_peak. simpl.
  repeat split.
  - apply py_min_le_py_max.
  - apply Qle_bool_false_iff. exact E1.
  - apply Qlt_bool_false_iff. exact E2.
Qed.

(** ** The loop over the candidates *)

Lemma local_maxima_indices_ok (ss : list Q) :
  candidate_indices_ok ss (_local_maxima_indices ss).
Proof.
  apply Forall_forall. intros i Hi. apply local_maxima_In in Hi.
  destruct Hi as (H1 & H2 & _). split; assumption.
Qed.

Lemma collect_spec (x ss : list Q) (mp : Q) (k : Kind) (peaks : list nat) :
  length x = length ss -> candidate_indices_ok ss peaks ->
  exists cs cands,
    collect x ss mp k peaks = Ok cs /\
    Forall2 (fun i c => candidate x ss mp k i = Ok c) peaks cands /\
    cs = survivors cands /\
    Forall (fun t => keyed t /\ valid_peak (snd t) /\ kind (snd t) = k) cs.
Proof.
  intros Hl Hok. induction Hok as [|i peaks [Hi1 Hi2] Hok IH].
  - exists [], []. repeat split; constructor.
  - destruct IH as (cs & cands & Hc & Hf2 & Hs & Hall).
    destruct (@candidate_spec x ss mp k i Hl Hi1 Hi2) as (c & Hcand & Hprop).
    simpl collect. rewrite Hcand, Hc. simpl bind.
    exists (match c with Some t => t :: cs | None => cs end), (c :: cands).
    repeat split.
    + constructor; assumption.
    + subst cs. destruct c; reflexivity.
    + destruct c as [t|]; [|exact Hall]. constructor; [|exact Hall].
      destruct (Hprop t eq_refl) as (Ha & Hb & Hd & _). auto.
Qed.

(** ** The stable sort by decreasing key *)

Section Sorting.
Context {A : Type}.
Implicit Types (t u : Q * A) (l : list (Q * A)).

Lemma insert_desc_perm t l : Permutation (insert_desc t l) (t :: l).
Proof.
  induction l as [|u l IH]; simpl; [reflexivity|].
  destruct (Qlt_bool (fst t) (fst u)); [|reflexivity].
  rewrite IH. apply perm_swap.
Qed.

Lemma sort_desc_perm l : Permutation (sort_desc l) l.
Proof.
  induction l as [|t l IH]; simpl; [reflexivity|].
  rewrite insert_desc_perm. now constructor.
Qed.

Lemma insert_desc_sorted t l :
  sorted_desc l -> sorted_desc (insert_desc t l).
Proof.
  unfold sorted_desc. induction 1 as [|u l Hs IH Hall]; simpl.
  - repeat constructor.
  - destruct (Qlt_bool (fst t) (fst u)) eqn:E.
    + constructor; [exact IH|].
      eapply Permutation_Forall.
      * symmetry. apply insert_desc_perm.
      * constructor; [|exact Hall].
        apply Qlt_le_weak, Qlt_bool_iff, E.
    + apply Qlt_bool_false_iff in E.
      constructor; [constructor; assumption|].
      constructor; [exact E|].
      eapply Forall_impl; [|exact Hall]. simpl. intros v Hv.
      eapply Qle_trans; eassumption.
Qed.

Lemma sort_desc_sorted l : sorted_desc (sort_desc l).
Proof.
  induction l as [|t l IH]; simpl.
  - constructor.
  - apply insert_desc_sorted, IH.
Qed.

(** Stability: the candidates with a given key keep their order. *)
Lemma insert_desc_stable (q : Q) t l :
  filter (fun u => Qeq_bool (fst u) q) (insert_desc t l)
  = filter (fun u => Qeq_bool (fst u) q) (t :: l).
Proof.
  induction l as [|u l IH]; [reflexivity|].
  simpl insert_desc. destruct (Qlt_bool (fst t) (fst u)) eqn:E;
    [|reflexivity].
  apply Qlt_bool_iff in E.
  simpl filter in *. rewrite IH.
  destruct (Qeq_bool (fst t) q) eqn:Et; [|reflexivity].
  destruct (Qeq_bool (fst u) q) eqn:Eu; [|reflexivity].
  apply Qeq_bool_iff in Et. apply Qeq_bool_iff in Eu.
  exfalso. rewrite Et, Eu in E. exact (Qlt_irrefl _ E).
Qed.

Lemma sort_desc_stable (q : Q) l :
  filter (fun u => Qeq_bool (fst u) q) (sort_desc l)
  = filter (fun u => Qeq_bool (fst u) q) l.
Proof.
  induction l as [|t l IH]; [reflexivity|].
  simpl sort_desc. rewrite insert_desc_stable. simpl. now rewrite IH.
Qed.

Lemma sorted_desc_firstn (n : nat) l :
  sorted_desc l -> sorted_desc (firstn n l).
Proof.
  unfold sorted_desc. intro H. revert n.
  induction H as [|u l Hs IH Hall]; intros [|n]; simpl; try constructor.
  - apply IH.
  - apply Forall_forall. intros v Hv.
    rewrite Forall_forall in Hall. apply Hall.
    rewrite <- (firstn_skipn n l). apply in_or_app. now left.
Qed.
End Sorting.

Lemma sorted_desc_prominences (l : list (Q * PeakRange)) :
  Forall keyed l -> sorted_desc l ->
  non_increasing (map prominence (map snd l)).
Proof.
  unfold sorted_desc, non_increasing. intros Hk Hs.
  induction Hs as [|t l Hs IH Hall]; simpl; constructor.
  - apply IH. now inversion Hk.
  - inversion Hk as [|? ? Ht Hl]; subst.
    rewrite Forall_map, Forall_map.
    rewrite Forall_forall in Hall, Hl. apply Forall_forall. intros u Hu.
    rewrite <- Ht, <- (Hl u Hu). apply Hall, Hu.
Qed.

(** ** [_smooth] keeps the length *)

Lemma convolve_same_length (a v : list Q) :
  length (convolve_same a v) = length a.
Proof. unfold convolve_same. now rewrite length_map, length_seq. Qed.

Lemma smooth_length (y : list Q) (window : Z) :
  length (_smooth y window) = length y.
Proof.
  unfold _smooth. destruct (window <=? 1)%Z; [reflexivity|].
  match goal with |- context [(Z.of_nat (length y) <? ?w)%Z] =>
    destruct (Z.of_nat (length y) <? w)%Z end; [reflexivity|].
  apply convolve_same_length.
Qed.

(** ** [_extract_peaks_from_signal] *)

Lemma nonempty_reductions (a : list Q) :
  a <> [] ->
  exists hi lo, existsb (fun _ : Q => true) a = true /\
                nanmax a = Ok hi /\ nanmin a = Ok lo.
Proof.
  destruct a as [|v a]; [congruence|]. intros _.
  do 2 eexists. repeat split.
Qed.

(** The structure of a result: the surviving candidates of the local
    maxima, in the order of the indices, sorted and cut to [top_n]. *)
Lemma extract_peaks_from_signal_ranked (x s : list Q) (top_n w : Z)
    (ratio : Q) (k : Kind) :
  length x = length s ->
  exists mp cands,
    Forall2 (fun i c => candidate x (_smooth s w) mp k i = Ok c)
      (_local_maxima_indices (_smooth s w)) cands /\
    Forall (fun t => keyed t /\ valid_peak (snd t) /\ kind (snd t) = k)
      (survivors cands) /\
    _extract_peaks_from_signal x s top_n w ratio k
    = Ok (map snd (firstn (Z.to_nat (Z.max 0 top_n))
                     (sort_desc (survivors cands)))).
Proof.
  intro Hl. unfold _extract_peaks_from_signal.
  set (ss := _smooth s w).
  assert (Hlss : length x = length ss).
  { unfold ss. now rewrite smooth_length. }
  destruct (length (_local_maxima_indices ss) =? 0)%nat eqn:E.
  - apply Nat.eqb_eq in E. apply length_zero_iff_nil in E. rewrite E.
    exists 0, []. repeat split; try constructor.
    simpl. now rewrite firstn_nil.
  - assert (Hne : ss <> []).
    { intro H0. rewrite H0 in E. discriminate. }
    destruct (nonempty_reductions Hne) as (hi & lo & Hex & Hhi & Hlo).
    rewrite Hex, Hhi, Hlo. cbn [bind].
    match goal with |- context [collect x ss ?m k _] => set (mp := m) end.
    destruct (@collect_spec x ss mp k (_local_maxima_indices ss) Hlss
                (local_maxima_indices_ok ss))
      as (cs & cands & Hc & Hf2 & Hs & Hall).
    rewrite Hc. cbn [bind]. exists mp, cands. subst cs.
    repeat split; assumption.
Qed.

Lemma extract_peaks_from_signal_spec (x s : list Q) (top_n w : Z)
    (ratio : Q) (k : Kind) :
  length x = length s ->
  exists res,
    _extract_peaks_from_signal x s top_n w ratio k = Ok res /\
    Forall (fun p => valid_peak p /\ kind p = k) res /\
    non_increasing (map prominence res) /\
    (Z.of_nat (length res) <= Z.max 0 top_n)%Z.
Proof.
  intro Hl.
  destruct (@extract_peaks_from_signal_ranked x s top_n w ratio k Hl)
    as (mp & cands & _ & Hall & Hres).
  eexists. split; [exact Hres|].
  set (n := Z.to_nat (Z.max 0 top_n)).
  assert (Hsorted : Forall (fun t => keyed t /\ valid_peak (snd t) /\
                                     kind (snd t) = k)
                      (sort_desc (survivors cands))).
  { eapply Permutation_Forall; [|exact Hall].
    symmetry. apply sort_desc_perm. }
  assert (Hfirst : Forall (fun t => keyed t /\ valid_peak (snd t) /\
                                    kind (snd t) = k)
                     (firstn n (sort_desc (survivors cands)))).
  { apply Forall_forall. intros t Ht. rewrite Forall_forall in Hsorted.
    apply Hsorted. rewrite <- (firstn_skipn n (sort_desc (survivors cands))).
    apply in_or_app. now left. }
  repeat split.
  - rewrite Forall_map. eapply Forall_impl; [|exact Hfirst]. simpl. tauto.
  - apply sorted_desc_prominences.
    + eapply Forall_impl; [|exact Hfirst]. simpl. tauto.
    + apply sorted_desc_firstn, sort_desc_sorted.
  - rewrite length_map. pose proof (firstn_le_length n (sort_desc (survivors cands))).
    unfold n in *. lia.
Qed.

(** ** [extract_top_peaks] *)

Lemma select_finite_mask_length (x y : list sample) :
  length (select (finite_mask x y) x) = length (select (finite_mask x y) y).
Proof.
  revert y. induction x as [|u x IH]; intros [|v y]; simpl; auto.
  destruct (isfinite u && isfinite v); simpl; auto.
Qed.

Lemma valid_xy_length (x y : list sample) :
  length (valid_x x y) = length (valid_y x y).
Proof.
  unfold valid_x, valid_y. rewrite !length_map.
  apply select_finite_mask_length.
Qed.

(** The three ways through [extract_top_peaks]. *)
Lemma extract_top_peaks_rejects (x y : list sample) (top_n : Z) (mode : Mode)
    (w : Z) (ratio : Q) :
  length x <> length y \/ (length (valid_x x y) < 3)%nat ->
  extract_top_peaks x y top_n mode w ratio = Ok [].
Proof.
  intro H. unfold extract_top_peaks. fold (valid_x x y). fold (valid_y x y).
  destruct (Nat.eqb_spec (length x) (length y)) as [Heq|Hne];
    [|reflexivity]. simpl negb. simpl orb.
  destruct (length x <? 3)%nat; [reflexivity|].
  destruct H as [H|H]; [congruence|].
  apply Nat.ltb_lt in H. now rewrite H.
Qed.

Lemma extract_top_peaks_accepts (x y : list sample) (top_n : Z) (mode : Mode)
    (w : Z) (ratio : Q) :
  length x = length y -> (3 <= length (valid_x x y))%nat ->
  extract_top_peaks x y top_n mode w ratio =
  match mode with
  | Max => _extract_peaks_from_signal (valid_x x y) (valid_y x y) top_n w
             ratio KMax
  | Min => _extract_peaks_from_signal (valid_x x y) (map Qopp (valid_y x y))
             top_n w ratio KMin
  | Auto =>
      peaks_max <- _extract_peaks_from_signal (valid_x x y) (valid_y x y)
                     top_n w ratio KMax ;;
      peaks_min <- _extract_peaks_from_signal (valid_x x y)
                     (map Qopp (valid_y x y)) top_n w ratio KMin ;;
      Ok (if Qlt_bool (py_sum (map prominence peaks_max))
                      (py_sum (map prominence peaks_min))
          then peaks_min else peaks_max)
  end.
Proof.
  intros Hl H3. unfold extract_top_peaks.
  fold (valid_x x y). fold (valid_y x y).
  apply Nat.eqb_eq in Hl. rewrite Hl. simpl negb. simpl orb.
  apply Nat.eqb_eq in Hl.
  assert (Hx : (3 <= length x)%nat).
  { unfold valid_x in H3. rewrite length_map in H3.
    eapply Nat.le_trans; [exact H3|].
    clear. generalize (finite_mask x y). intro m. revert x.
    induction m as [|b m IH]; intros [|u x]; simpl; try lia.
    destruct b; simpl; specialize (IH x); lia. }
  apply Nat.ltb_ge in Hx. rewrite Hx.
  apply Nat.ltb_ge in H3. rewrite H3. reflexivity.
Qed.

Lemma valid_count_cases (x y : list sample) :
  (length x <> length y \/ (length (valid_x x y) < 3)%nat) \/
  (length x = length y /\ (3 <= length (valid_x x y))%nat).
Proof.
  destruct (Nat.eq_dec (length x) (length y)); [|now left; left].
  destruct (Nat.lt_ge_cases (length (valid_x x y)) 3); [left|right]; auto.
Qed.

(** [extract_top_peaks] returns for every input, and what it returns is
    a list of valid records in non-increasing order of prominence, no
    longer than [top_n]. *)
Lemma extract_top_peaks_spec (x y : list sample) (top_n : Z) (mode : Mode)
    (w : Z) (ratio : Q) :
  exists res,
    extract_top_peaks x y top_n mode w ratio = Ok res /\
    Forall valid_peak res /\
    non_increasing (map prominence res) /\
    (Z.of_nat (length res) <= Z.max 0 top_n)%Z.
Proof.
  destruct (valid_count_cases x y) as [Hrej|[Hl H3]].
  - exists []. split; [now apply extract_top_peaks_rejects|].
    repeat split; try constructor. simpl. lia.
  - rewrite (@extract_top_peaks_accepts x y top_n mode w ratio Hl H3).
    destruct (@extract_peaks_from_signal_spec (valid_x x y) (valid_y x y)
                top_n w ratio KMax (valid_xy_length x y))
      as (pmax & Hmax & Vmax & Smax & Lmax).
    destruct (@extract_peaks_from_signal_spec (valid_x x y)
                (map Qopp (valid_y x y)) top_n w ratio KMin)
      as (pmin & Hmin & Vmin & Smin & Lmin).
    { rewrite length_map. apply valid_xy_length. }
    assert (Wmax : Forall valid_peak pmax).
    { eapply Forall_impl; [|exact Vmax]. simpl. tauto. }
    assert (Wmin : Forall valid_peak pmin).
    { eapply Forall_impl; [|exact Vmin]. simpl. tauto. }
    destruct mode.
    + rewrite Hmax, Hmin. cbn [bind].
      destruct (Qlt_bool _ _); eexists; (split; [reflexivity|]); auto.
    + exists pmax. auto.
    + exists pmin. auto.
Qed.

(** In exact arithmetic [extract_top_peaks] returns for every input, and
    every record it returns has [left <= right] and a strictly positive
    prominence. *)
Lemma exact_ranges_valid (x y : list sample) (top_n : Z) (mode : Mode)
    (smooth_window : Z) (min_prominence_ratio : Q) :
  exists res,
    extract_top_peaks x y top_n mode smooth_window min_prominence_ratio
    = Ok res /\
    Forall (fun p => left p <= right p /\ 0 < prominence p) res.
Proof.
  destruct (extract_top_peaks_spec x y top_n mode smooth_window
              min_prominence_ratio) as (res & Hres & Hv & _).
  exists res. split; [exact Hres|exact Hv].
Qed.

(** ** The order of binary64 *)

Ltac pos_case a b :=
  let H := fresh in
  pose proof (Pos.compare_spec a b) as H;
  change (Pos.compare a b) with (Pos.compare_cont Eq a b) in H;
  destruct H.

Ltac order_step :=
  match goal with
  | H : context [Z.compare ?a ?b] |- _ => destruct (Z.compare_spec a b)
  | |- context [Z.compare ?a ?b] => destruct (Z.compare_spec a b)
  | H : context [Pos.compare_cont Eq ?a ?b] |- _ => pos_case a b
  | |- context [Pos.compare_cont Eq ?a ?b] => pos_case a b
  end.

Ltac order_cases :=
  repeat order_step; cbn in *; subst;
  try discriminate; try reflexivity; try lia.

(** Swapping the operands of a comparison reverses its outcome. *)
Lemma compare_swap (a b : F64.float) :
  SFcompare b a = option_map CompOpp (SFcompare a b).
Proof.
  destruct a as [sa|sa| |sa ma ea], b as [sb|sb| |sb mb eb];
    try (destruct sa); try (destruct sb); try reflexivity;
    cbn; order_cases.
Qed.

Lemma ltb_not_leb (a b : F64.float) :
  F64.ltb a b = true -> F64.leb b a = false.
Proof.
  unfold F64.ltb, F64.leb, SFltb, SFleb. rewrite (compare_swap a b).
  destruct (SFcompare a b) as [[]|]; cbn; congruence.
Qed.

Lemma ltb_leb (a b : F64.float) :
  F64.ltb a b = true -> F64.leb a b = true.
Proof.
  unfold F64.ltb, F64.leb, SFltb, SFleb.
  destruct (SFcompare a b) as [[]|]; congruence.
Qed.

(** Without NaN the order is total: what is not [<=] is [>]. *)
Lemma not_leb_ltb (a b : F64.float) :
  F64.isnan a = false -> F64.isnan b = false ->
  F64.leb a b = false -> F64.ltb b a = true.
Proof.
  unfold F64.ltb, F64.leb, SFltb, SFleb. rewrite (compare_swap a b).
  destruct a as [sa|sa| |sa ma ea], b as [sb|sb| |sb mb eb];
    try discriminate; intros _ _;
    match goal with |- context [SFcompare ?u ?v] =>
      destruct (SFcompare u v) as [[]|] eqn:E end;
    cbn; try congruence;
    cbn in E;
    repeat match type of E with
      | context [if ?s then _ else _] => destruct s
      end;
    discriminate.
Qed.

Lemma leb_trans (a b c : F64.float) :
  F64.leb a b = true -> F64.leb b c = true -> F64.leb a c = true.
Proof.
  unfold F64.leb, SFleb.
  destruct a as [sa|sa| |sa ma ea], b as [sb|sb| |sb mb eb],
           c as [sc|sc| |sc mc ec];
    try (destruct sa); try (destruct sb); try (destruct sc);
    cbn; try discriminate; try reflexivity;
    intros H1 H2; order_cases.
Qed.

Lemma leb_refl (a : F64.float) : F64.isnan a = false -> F64.leb a a = true.
Proof.
  intro H. destruct (F64.leb a a) eqn:E; [reflexivity|].
  pose proof (@not_leb_ltb _ _ H H E) as Hlt.
  apply ltb_leb in Hlt. congruence.
Qed.

(** The normalisation [lo = min(a, b)], [hi = max(a, b)] gives
    [lo <= hi] unless [lo] is NaN, which it is exactly when [a] is. *)
Lemma py_min_py_max_ordered (a b : F64.float) :
  F64.isnan (F64.py_min a b) = F64.isnan a /\
  (F64.isnan a = false ->
   F64.leb (F64.py_min a b) (F64.py_max a b) = true).
Proof.
  unfold F64.py_min, F64.py_max. split.
  - destruct (F64.ltb b a) eqn:E; [|reflexivity].
    destruct a, b; try discriminate; reflexivity.
  - intro Ha.
    destruct (F64.ltb b a) eqn:E1, (F64.ltb a b) eqn:E2.
    + apply ltb_not_leb in E2. apply ltb_leb in E1. congruence.
    + apply ltb_leb, E1.
    + apply ltb_leb, E2.
    + now apply leb_refl.
Qed.

Lemma no_nan_at (s : list F64.float) (i : nat) :
  F64.no_nan s -> (i < length s)%nat -> F64.isnan (F64.at_ s i) = false.
Proof.
  unfold F64.no_nan. intros H Hi. rewrite Forall_forall in H.
  apply H. unfold F64.at_. apply nth_In, Hi.
Qed.

Lemma F64_get_in_range (a : list F64.float) (i : nat) :
  (i < length a)%nat -> F64.get a i = Ok (F64.at_ a i).
Proof.
  intro H. unfold F64.get, F64.at_.
  rewrite (nth_error_nth' a F64.nan H). reflexivity.
Qed.

(** ** Overflow in the interpolation *)

(** C10.  In binary64 the bounds are not always ordered.  On the finite
    input x = [0, -2^1023, 2^1023, 0, 0], y = [0, 1, 2, 1, 0] with the
    default parameters (the signal is shorter than the window, so it is
    not smoothed) the peak is sample 2 with baseline 0, prominence 2 and
    half level 1.  The left walk stops on sample 1, which lies on the
    level, so [t = 0]; [x[2] - x[1]] overflows to infinity and
    [0 * inf] is NaN.  [min] and [max] keep their first argument when
    the comparison with the second fails, so both bounds of the record
    are NaN and [left <= right] is false. *)
Theorem overflow_yields_nan_bounds
    (np_convolve_same : list F64.float -> list F64.float -> list F64.float) :
  Forall (fun v => F64.isfinite v = true) (overflow_x ++ overflow_y) /\
  F64._local_maxima_indices overflow_y = [2%nat] /\
  F64._nearest_local_min_left overflow_y 2 = Ok 0%nat /\
  F64._nearest_local_min_right overflow_y 2 = Ok 4%nat /\
  F64.width_walk_left overflow_y 0 (F64.of_Z 1) 2 = Ok 1%nat /\
  F64.width_walk_right 6 overflow_y 4 (F64.of_Z 1) 2 = Ok 3%nat /\
  F64.sub (F64.pow2 1023) (F64.opp (F64.pow2 1023)) = S754_infinity false /\
  F64._interp_x_at_level overflow_x overflow_y 1 2 (F64.of_Z 1)
  = Ok F64.nan /\
  F64._interp_x_at_level overflow_x overflow_y 2 3 (F64.of_Z 1)
  = Ok F64.zero /\
  F64.py_min F64.nan F64.zero = F64.nan /\
  F64.py_max F64.nan F64.zero = F64.nan /\
  F64.extract_top_peaks np_convolve_same overflow_x overflow_y
    default_top_n Auto default_smooth_window F64.default_min_prominence_ratio
  = Ok [F64.mkPeakRange KMax F64.nan (F64.pow2 1023) F64.nan (F64.of_Z 2)] /\
  F64.extract_top_peaks np_convolve_same overflow_x overflow_y
    default_top_n Max default_smooth_window F64.default_min_prominence_ratio
  = Ok [F64.mkPeakRange KMax F64.nan (F64.pow2 1023) F64.nan (F64.of_Z 2)] /\
  F64.leb F64.nan F64.nan = false.
Proof.
  split; [repeat constructor|].
  repeat split; vm_compute; reflexivity.
Qed.

(** ** Polarity *)

Lemma candidate_relabel (x ss : list Q) (mp : Q) (k k0 : Kind) (i : nat) :
  candidate x ss mp k i
  = map_result (option_map (relabel_candidate k)) (candidate x ss mp k0 i).
Proof.
  unfold candidate, map_result.
  destruct (_nearest_local_min_left ss i) as [L| |]; try reflexivity.
  destruct (_nearest_local_min_right ss i) as [R| |]; try reflexivity.
  cbn [bind].
  destruct (get ss L) as [sl| |]; try reflexivity.
  destruct (get ss R) as [sr| |]; try reflexivity.
  destruct (get ss i) as [sp| |]; try reflexivity.
  cbn [bind].
  destruct (Qle_bool _ 0 || Qlt_bool _ mp); [reflexivity|].
  destruct (_half_prominence_width _ _ _ _ _ _ _) as [[l r]| |];
    try reflexivity.
  cbn [bind].
  destruct (get x i) as [c| |]; reflexivity.
Qed.

Lemma collect_relabel (x ss : list Q) (mp : Q) (k k0 : Kind)
    (peaks : list nat) :
  collect x ss mp k peaks
  = map_result (map (relabel_candidate k)) (collect x ss mp k0 peaks).
Proof.
  induction peaks as [|i peaks IH]; [reflexivity|].
  simpl collect. rewrite IH, (candidate_relabel x ss mp k k0 i).
  unfold map_result.
  destruct (candidate x ss mp k0 i) as [c| |]; try reflexivity.
  cbn [bind].
  destruct (collect x ss mp k0 peaks) as [cs| |]; try reflexivity.
  cbn [bind]. destruct c; reflexivity.
Qed.

Lemma insert_desc_relabel (k : Kind) (t : Q * PeakRange)
    (l : list (Q * PeakRange)) :
  insert_desc (relabel_candidate k t) (map (relabel_candidate k) l)
  = map (relabel_candidate k) (insert_desc t l).
Proof.
  induction l as [|u l IH]; [reflexivity|].
  simpl. destruct (Qlt_bool (fst t) (fst u)); simpl; [|reflexivity].
  now rewrite IH.
Qed.

Lemma sort_desc_relabel (k : Kind) (l : list (Q * PeakRange)) :
  sort_desc (map (relabel_candidate k) l)
  = map (relabel_candidate k) (sort_desc l).
Proof.
  induction l as [|t l IH]; [reflexivity|].
  simpl. rewrite IH. apply insert_desc_relabel.
Qed.

Lemma extract_peaks_from_signal_relabel (x s : list Q) (top_n w : Z)
    (ratio : Q) (k k0 : Kind) :
  _extract_peaks_from_signal x s top_n w ratio k
  = map_result (map (relabel k))
      (_extract_peaks_from_signal x s top_n w ratio k0).
Proof.
  unfold _extract_peaks_from_signal.
  destruct (length (_local_maxima_indices (_smooth s w)) =? 0)%nat;
    [reflexivity|].
  unfold map_result.
  match goal with |- bind ?c _ = _ => destruct c as [span| |] end;
    try reflexivity.
  cbn [bind]. rewrite (collect_relabel _ _ _ k k0). unfold map_result.
  destruct (collect _ _ _ k0 _) as [cs| |]; try reflexivity.
  cbn [bind]. f_equal.
  rewrite sort_desc_relabel, firstn_map, !map_map. reflexivity.
Qed.

Lemma finite_mask_neg (x y : list sample) :
  finite_mask x (map neg y) = finite_mask x y.
Proof.
  revert y. induction x as [|u x IH]; intros [|v y]; simpl; auto.
  rewrite IH. now destruct v.
Qed.

Lemma valid_x_neg (x y : list sample) :
  valid_x x (map neg y) = valid_x x y.
Proof. unfold valid_x. now rewrite finite_mask_neg. Qed.

Lemma valid_y_neg (x y : list sample) :
  valid_y x (map neg y) = map Qopp (valid_y x y).
Proof.
  unfold valid_y. rewrite finite_mask_neg.
  generalize (finite_mask x y). intro m. revert y.
  induction m as [|b m IH]; intros [|v y]; simpl; auto.
  destruct b; simpl; rewrite IH; [|reflexivity].
  now destruct v.
Qed.

(** C5.  For every input and parameter set, [mode="min"] on [(x, y)]
    returns the sequence that [mode="max"] returns on [(x, -y)], with the
    kind of each record (which is [max] there) relabelled to [min] and all
    other fields equal. *)
Theorem polarity_consistency (x y : list sample) (top_n : Z)
    (smooth_window : Z) (min_prominence_ratio : Q) :
  exists res,
    extract_top_peaks x (map neg y) top_n Max smooth_window
      min_prominence_ratio = Ok res /\
    Forall (fun p => kind p = KMax) res /\
    extract_top_peaks x y top_n Min smooth_window min_prominence_ratio
    = Ok (map (relabel KMin) res).
Proof.
  destruct (valid_count_cases x y) as [Hrej|[Hl H3]].
  - exists []. repeat split; try constructor.
    + apply extract_top_peaks_rejects.
      rewrite length_map, valid_x_neg. exact Hrej.
    + now apply extract_top_peaks_rejects.
  - rewrite (@extract_top_peaks_accepts x y top_n Min smooth_window
               min_prominence_ratio Hl H3).
    rewrite (@extract_top_peaks_accepts x (map neg y) top_n Max smooth_window
               min_prominence_ratio).
    2:{ now rewrite length_map. }
    2:{ now rewrite valid_x_neg. }
    rewrite valid_x_neg, valid_y_neg.
    destruct (@extract_peaks_from_signal_spec (valid_x x y)
                (map Qopp (valid_y x y)) top_n smooth_window
                min_prominence_ratio KMax)
      as (res & Hres & Hv & _).
    { rewrite length_map. apply valid_xy_length. }
    exists res. split; [exact Hres|]. split.
    + eapply Forall_impl; [|exact Hv]. simpl. tauto.
    + rewrite (extract_peaks_from_signal_relabel _ _ _ _ _ KMin KMax).
      rewrite Hres. reflexivity.
Qed.

(** ** The polarity selector *)

(** C4.  In [mode="auto"] the extraction is run on [y] with kind [max] and
    on [-y] with kind [min], with the same parameters; these are the
    results of [mode="max"] and [mode="min"].  The [min] set is returned
    when the sum of its prominences is strictly greater than that of the
    [max] set, and the [max] set otherwise, in particular on a tie. *)
Theorem auto_mode_selects (x y : list sample) (top_n : Z)
    (smooth_window : Z) (min_prominence_ratio : Q) :
  exists peaks_max peaks_min,
    extract_top_peaks x y top_n Max smooth_window min_prominence_ratio
    = Ok peaks_max /\
    extract_top_peaks x y top_n Min smooth_window min_prominence_ratio
    = Ok peaks_min /\
    (((length x <> length y \/ (length (valid_x x y) < 3)%nat) /\
      peaks_max = [] /\ peaks_min = []) \/
     (_extract_peaks_from_signal (valid_x x y) (valid_y x y) top_n
        smooth_window min_prominence_ratio KMax = Ok peaks_max /\
      _extract_peaks_from_signal (valid_x x y) (map Qopp (valid_y x y)) top_n
        smooth_window min_prominence_ratio KMin = Ok peaks_min)) /\
    ((py_sum (map prominence peaks_max) < py_sum (map prominence peaks_min) /\
      extract_top_peaks x y top_n Auto smooth_window min_prominence_ratio
      = Ok peaks_min) \/
     (py_sum (map prominence peaks_min) <= py_sum (map prominence peaks_max) /\
      extract_top_peaks x y top_n Auto smooth_window min_prominence_ratio
      = Ok peaks_max)).
Proof.
  destruct (valid_count_cases x y) as [Hrej|[Hl H3]].
  - exists [], []. rewrite !extract_top_peaks_rejects by exact Hrej.
    repeat split; auto.
    right. split; [apply Qle_refl|reflexivity].
  - rewrite !(@extract_top_peaks_accepts x y top_n _ smooth_window
                min_prominence_ratio Hl H3).
    destruct (@extract_peaks_from_signal_spec (valid_x x y) (valid_y x y)
                top_n smooth_window min_prominence_ratio KMax
                (valid_xy_length x y)) as (pmax & Hmax & _).
    destruct (@extract_peaks_from_signal_spec (valid_x x y)
                (map Qopp (valid_y x y)) top_n smooth_window
                min_prominence_ratio KMin) as (pmin & Hmin & _).
    { rewrite length_map. apply valid_xy_length. }
    exists pmax, pmin. rewrite Hmax, Hmin. cbn [bind].
    repeat split; auto.
    destruct (Qlt_bool (py_sum (map prominence pmax))
                (py_sum (map prominence pmin))) eqn:E.
    + left. split; [|reflexivity]. apply Qlt_bool_iff, E.
    + right. split; [|reflexivity]. apply Qlt_bool_false_iff, E.
Qed.

(** ** The ranker *)

Lemma candidate_outcome (x ss : list Q) (mp : Q) (k : Kind) (i : nat) :
  length x = length ss -> (1 <= i)%nat -> (i + 2 <= length ss)%nat ->
  exists c, candidate x ss mp k i = Ok c /\ loop_outcome x ss mp k i c.
Proof.
  intros Hl H1 H2. unfold candidate, loop_outcome.
  destruct (@nearest_local_min_left_spec ss i) as (L & HL & La & _);
    try lia.
  destruct (@nearest_local_min_right_spec ss i) as (R & HR & Ra & _);
    try lia.
  rewrite HL, HR. cbn [bind].
  rewrite (get_in_range ss (i := L)) by lia.
  rewrite (get_in_range ss (i := R)) by lia.
  rewrite (get_in_range ss (i := i)) by lia. cbn [bind].
  set (prom := at_ ss i - py_max (at_ ss L) (at_ ss R)).
  destruct (Qle_bool prom 0) eqn:E1; cbn [orb].
  { exists None. split; [reflexivity|]. exists L, R.
    split; [reflexivity|]. split; [reflexivity|].
    left. apply Qle_bool_iff, E1. }
  destruct (Qlt_bool prom mp) eqn:E2.
  { exists None. split; [reflexivity|]. exists L, R.
    split; [reflexivity|]. split; [reflexivity|].
    right. apply Qlt_bool_iff, E2. }
  destruct (@half_prominence_width_returns x ss i L R
              (py_max (at_ ss L) (at_ ss R)) prom)
    as (l & r & Hw); try lia.
  rewrite Hw. cbn [bind].
  rewrite (get_in_range x (i := i)) by lia. cbn [bind].
  eexists. split; [reflexivity|]. exists L, R.
  split; [reflexivity|]. split; [reflexivity|]. cbn.
  split; [|split].
  - apply Qlt_not_le, Qle_bool_false_iff, E1.
  - apply Qle_not_lt, Qlt_bool_false_iff, E2.
  - repeat split.
Qed.

Lemma collect_outcomes (x ss : list Q) (mp : Q) (k : Kind)
    (peaks : list nat) :
  length x = length ss -> candidate_indices_ok ss peaks ->
  exists cands,
    Forall2 (fun i c => candidate x ss mp k i = Ok c /\
                        loop_outcome x ss mp k i c) peaks cands /\
    collect x ss mp k peaks = Ok (survivors cands).
Proof.
  intros Hl Hok. induction Hok as [|i peaks [Hi1 Hi2] Hok IH].
  - exists []. split; [constructor|reflexivity].
  - destruct IH as (cands & Hf2 & Hc).
    destruct (@candidate_outcome x ss mp k i Hl Hi1 Hi2) as (c & Hcand & Ho).
    exists (c :: cands). split; [constructor; auto|].
    simpl collect. rewrite Hcand, Hc. cbn [bind].
    destruct c; reflexivity.
Qed.

Lemma loop_outcome_keyed (x ss : list Q) (mp : Q) (k : Kind)
    (peaks : list nat) (cands : list (option (Q * PeakRange))) :
  Forall2 (fun i c => candidate x ss mp k i = Ok c /\
                      loop_outcome x ss mp k i c) peaks cands ->
  Forall keyed (survivors cands).
Proof.
  induction 1 as [|i c peaks cands [_ Ho] _ IH]; [constructor|].
  destruct c as [t|]; [|exact IH].
  simpl. constructor; [|exact IH].
  destruct Ho as (L & R & _ & _ & Ho). cbn in Ho.
  destruct Ho as (_ & _ & Hk & Hp & _). unfold keyed. congruence.
Qed.

(** The result of one extraction: the outcomes of the loop body for the
    local maxima of the smoothed signal, under the threshold that the
    signal fixes, sorted and cut. *)
Lemma extract_peaks_from_signal_survivors (x s : list Q) (top_n w : Z)
    (ratio : Q) (k : Kind) :
  length x = length s ->
  exists cands,
    Forall2 (fun i c =>
               candidate x (_smooth s w)
                 (min_prominence_of (_smooth s w) ratio) k i = Ok c /\
               loop_outcome x (_smooth s w)
                 (min_prominence_of (_smooth s w) ratio) k i c)
      (_local_maxima_indices (_smooth s w)) cands /\
    _extract_peaks_from_signal x s top_n w ratio k
    = Ok (map snd (firstn (Z.to_nat (Z.max 0 top_n))
                     (sort_desc (survivors cands)))).
Proof.
  intro Hl. unfold _extract_peaks_from_signal.
  assert (Hlss : length x = length (_smooth s w)).
  { now rewrite smooth_length. }
  remember (_smooth s w) as ss eqn:Ess. clear Ess.
  destruct (@collect_outcomes x ss (min_prominence_of ss ratio) k
              (_local_maxima_indices ss) Hlss (local_maxima_indices_ok ss))
    as (cands & Hf2 & Hc).
  exists cands. split; [exact Hf2|].
  destruct (length (_local_maxima_indices ss) =? 0)%nat eqn:E.
  - apply Nat.eqb_eq in E. apply length_zero_iff_nil in E.
    rewrite E in Hf2. inversion Hf2. simpl. now rewrite firstn_nil.
  - destruct ss as [|v a]; [discriminate E|].
    cbn [existsb orb nanmax nanmin bind].
    fold (global_span_of (v :: a)).
    fold (min_prominence_of (v :: a) ratio).
    rewrite Hc. reflexivity.
Qed.

(** C6.  The ranker returns the surviving candidates, sorted by
    decreasing prominence with a stable sort and cut to the first
    [max(0, top_n)].  The survivors are fixed by the input: the loop runs
    over the local maxima of the smoothed signal in increasing order of
    the index, under the threshold [min_prominence_of] of that signal,
    and for each of them [loop_outcome] says whether it is skipped
    ([prominence <= 0 or prominence < min_prominence]) or kept, and with
    which key.  [sort_desc] permutes its input, sorts it and keeps the
    order of candidates with equal keys.  So a result of
    [extract_top_peaks] has at most [top_n] records (none for
    [top_n <= 0]), its prominences are non-increasing, and it is empty
    when fewer than three valid samples remain. *)
Theorem ranker_contract (pts : list (Q * Q)) (k : Kind)
    (x y : list sample) (top_n : Z) (mode : Mode) (smooth_window : Z)
    (min_prominence_ratio : Q) :
  (forall cands : list (Q * PeakRange),
      Permutation (sort_desc cands) cands /\
      sorted_desc (sort_desc cands) /\
      forall q, filter (fun u => Qeq_bool (fst u) q) (sort_desc cands)
                = filter (fun u => Qeq_bool (fst u) q) cands) /\
  (let xs := map fst pts in
   let ss := _smooth (map snd pts) smooth_window in
   let mp := min_prominence_of ss min_prominence_ratio in
   exists cands,
      StronglySorted lt (_local_maxima_indices ss) /\
      Forall2 (fun i c => candidate xs ss mp k i = Ok c /\
                          loop_outcome xs ss mp k i c)
        (_local_maxima_indices ss) cands /\
      Forall keyed (survivors cands) /\
      _extract_peaks_from_signal xs (map snd pts) top_n
        smooth_window min_prominence_ratio k
      = Ok (map snd (firstn (Z.to_nat (Z.max 0 top_n))
                       (sort_desc (survivors cands))))) /\
  (exists res,
      extract_top_peaks x y top_n mode smooth_window min_prominence_ratio
      = Ok res /\
      (Z.of_nat (length res) <= Z.max 0 top_n)%Z /\
      non_increasing (map prominence res) /\
      ((3 <= length (valid_x x y))%nat \/ res = [])).
Proof.
  split; [|split].
  - intro cands. split; [apply sort_desc_perm|].
    split; [apply sort_desc_sorted|]. intro q. apply sort_desc_stable.
  - cbv zeta.
    destruct (@extract_peaks_from_signal_survivors (map fst pts)
                (map snd pts) top_n smooth_window min_prominence_ratio k)
      as (cands & Hf2 & Hres).
    { now rewrite !length_map. }
    exists cands. split; [apply local_maxima_sorted|].
    split; [exact Hf2|]. split; [|exact Hres].
    eapply loop_outcome_keyed, Hf2.
  - destruct (extract_top_peaks_spec x y top_n mode smooth_window
                min_prominence_ratio) as (res & Hres & _ & Hs & Hlen).
    exists res. repeat split; auto.
    destruct (valid_count_cases x y) as [Hrej|[Hl H3]]; [right|now left].
    rewrite extract_top_peaks_rejects in Hres by exact Hrej. congruence.
Qed.

(** ** Scenario D *)

(** C1, as stated, does not hold: the result for x = [0,1,2], y = [1,2,1]
    is not a record with [left = right = 1]. *)
Lemma scenario_d_not_degenerate :
  ~ (exists p,
       extract_top_peaks scenario_d_x scenario_d_y default_top_n Auto
         default_smooth_window default_min_prominence_ratio = Ok [p] /\
       center p == 1 /\ prominence p == 1 /\
       left p == 1 /\ right p == 1).
Proof.
  intros (p & H & _ & _ & Hl & _).
  vm_compute in H. injection H as <-. discriminate Hl.
Qed.

(** C1, amended.  For x = [0,1,2], y = [1,2,1] and the default parameters
    the result is one record of kind [max] with center 1 and prominence 1:
    the flanking minima are the boundary samples 0 and 2, the baseline is
    1 and the half level 3/2.  Both width walks start on the peak, which
    lies above the level, and move one sample to the boundary, so the
    bounds are interpolated: [left = 1/2] and [right = 3/2]. *)
Theorem scenario_d_result :
  _nearest_local_min_left [1; 2; 1] 1 = Ok 0%nat /\
  _nearest_local_min_right [1; 2; 1] 1 = Ok 2%nat /\
  py_max (at_ [1; 2; 1] 0) (at_ [1; 2; 1] 2) = 1 /\
  width_walk_left [1; 2; 1] 0 (1 + (1 # 2) * (2 - 1)) 1 = Ok 0%nat /\
  width_walk_right 4 [1; 2; 1] 2 (1 + (1 # 2) * (2 - 1)) 1 = Ok 2%nat /\
  extract_top_peaks scenario_d_x scenario_d_y default_top_n Auto
    default_smooth_window default_min_prominence_ratio
  = Ok [mkPeakRange KMax (1 # 2) 1 (3 # 2) 1].
Proof. repeat split; vm_compute; reflexivity. Qed.

(** ** A negative smoothing window *)

(** C2, as stated, does not hold: with [smooth_window = -3] the call on
    the input of scenario D raises nothing. *)
Lemma negative_window_no_error :
  ~ (exists e,
       extract_top_peaks scenario_d_x scenario_d_y default_top_n Auto (-3)
         default_min_prominence_ratio = Raise e).
Proof. intros (e & H). vm_compute in H. discriminate H. Qed.

Lemma smooth_window_le_1 (y : list Q) (w : Z) :
  (w <= 1)%Z -> _smooth y w = y.
Proof.
  intro H. unfold _smooth. apply Z.leb_le in H. now rewrite H.
Qed.

Lemma extract_peaks_from_signal_window_le_1 (x s : list Q) (top_n w : Z)
    (ratio : Q) (k : Kind) :
  (w <= 1)%Z ->
  _extract_peaks_from_signal x s top_n w ratio k
  = _extract_peaks_from_signal x s top_n 1 ratio k.
Proof.
  intro H. unfold _extract_peaks_from_signal.
  rewrite (smooth_window_le_1 s H).
  rewrite (@smooth_window_le_1 s 1) by lia. reflexivity.
Qed.

(** C2, amended.  A negative [smooth_window] -- any window not above 1 --
    raises nothing: smoothing is skipped, and the call returns what it
    returns for [smooth_window = 1], for every input. *)
Theorem nonpositive_window_skips_smoothing (x y : list sample) (top_n : Z)
    (mode : Mode) (smooth_window : Z) (min_prominence_ratio : Q) :
  (smooth_window <= 1)%Z ->
  extract_top_peaks x y top_n mode smooth_window min_prominence_ratio
  = extract_top_peaks x y top_n mode 1 min_prominence_ratio /\
  exists res,
    extract_top_peaks x y top_n mode smooth_window min_prominence_ratio
    = Ok res.
Proof.
  intro H. split.
  - unfold extract_top_peaks.
    rewrite !(@extract_peaks_from_signal_window_le_1 _ _ top_n smooth_window
                min_prominence_ratio _ H).
    reflexivity.
  - destruct (extract_top_peaks_spec x y top_n mode smooth_window
                min_prominence_ratio) as (res & Hres & _).
    exists res. exact Hres.
Qed.

Lemma nonpositive_window_skips_smoothing_witness :
  extract_top_peaks scenario_d_x scenario_d_y default_top_n Auto (-3)
    default_min_prominence_ratio
  = extract_top_peaks scenario_d_x scenario_d_y default_top_n Auto 1
      default_min_prominence_ratio /\
  exists res,
    extract_top_peaks scenario_d_x scenario_d_y default_top_n Auto (-3)
      default_min_prominence_ratio = Ok res.
Proof.
  apply (@nonpositive_window_skips_smoothing scenario_d_x scenario_d_y
           default_top_n Auto (-3) default_min_prominence_ratio).
  lia.
Defined.

(** ** Malformed and flat inputs *)

Lemma select_all_finite (a b : list Q) :
  length a = length b ->
  valid_x (map Fin a) (map Fin b) = a /\ valid_y (map Fin a) (map Fin b) = b.
Proof.
  unfold valid_x, valid_y. revert b.
  induction a as [|u a IH]; intros [|v b] H; simpl in *; try discriminate;
    auto.
  destruct (IH b) as [Ha Hb]; [lia|]. now rewrite Ha, Hb.
Qed.

(** Non-finite samples are dropped as pairs: the result is the result on
    the valid samples alone. *)
Lemma extract_top_peaks_on_valid_samples (x y : list sample) (top_n : Z)
    (mode : Mode) (w : Z) (ratio : Q) :
  length x = length y ->
  extract_top_peaks x y top_n mode w ratio
  = extract_top_peaks (map Fin (valid_x x y)) (map Fin (valid_y x y)) top_n
      mode w ratio.
Proof.
  intro Hl.
  destruct (@select_all_finite _ _ (valid_xy_length x y)) as [Hx Hy].
  destruct (Nat.lt_ge_cases (length (valid_x x y)) 3) as [Hlt|Hge].
  - rewrite (@extract_top_peaks_rejects x y) by (right; exact Hlt).
    rewrite extract_top_peaks_rejects; [reflexivity|].
    right. now rewrite Hx.
  - rewrite (@extract_top_peaks_accepts x y) by assumption.
    rewrite extract_top_peaks_accepts.
    + now rewrite Hx, Hy.
    + rewrite !length_map. apply valid_xy_length.
    + now rewrite Hx.
Qed.

(** A flat signal has no local maximum as long as it is not smoothed. *)
Lemma flat_no_local_maxima (s : list Q) :
  (forall i j, (i < length s)%nat -> (j < length s)%nat ->
               at_ s i == at_ s j) ->
  _local_maxima_indices s = [].
Proof.
  intro Hflat. destruct (_local_maxima_indices s) as [|i l] eqn:E;
    [reflexivity|].
  assert (Hi : In i (_local_maxima_indices s)) by (rewrite E; now left).
  apply local_maxima_In in Hi.
  destruct Hi as (H1 & H2 & _ & _ & [H|H]); exfalso;
    rewrite (Hflat _ i) in H by lia; exact (Qlt_irrefl _ H).
Qed.

(** C3 fails on the code at a flat signal: for seven samples of value 5
    and the default window 7 the zero-padded moving average is a triangle,
    and [extract_top_peaks] returns one peak at its apex, in [auto] and in
    [max] mode.  The smoother of the generated-script copy leaves the same
    signal without a local maximum. *)
Theorem flat_signal_yields_peak :
  (exists p,
      extract_top_peaks flat_x flat_y default_top_n Auto
        default_smooth_window default_min_prominence_ratio = Ok [p] /\
      extract_top_peaks flat_x flat_y default_top_n Max
        default_smooth_window default_min_prominence_ratio = Ok [p] /\
      kind p = KMax /\ center p == 3 /\ prominence p == 15 # 7 /\
      left p == 3 # 2 /\ right p == 9 # 2) /\
  Forall2 Qeq (_smooth (valid_y flat_x flat_y) default_smooth_window)
    [20 # 7; 25 # 7; 30 # 7; 5; 30 # 7; 25 # 7; 20 # 7] /\
  _local_maxima_indices
    (template_smooth (valid_y flat_x flat_y) default_smooth_window) = [].
Proof.
  split; [|split].
  - eexists. split; [vm_compute; reflexivity|].
    split; [vm_compute; reflexivity|].
    repeat split.
  - vm_compute. repeat constructor.
  - vm_compute. reflexivity.
Qed.

(** ** The smoother *)

Section Sums.
Context {I : Type}.
Implicit Types (f g : I -> Q) (l : list I).

Lemma Qsum_ext f g l :
  (forall m, In m l -> f m == g m) -> Qsum f l == Qsum g l.
Proof.
  unfold Qsum. induction l as [|a l IH]; intro H; simpl; [reflexivity|].
  rewrite (H a) by now left. rewrite IH; [reflexivity|].
  intros m Hm. apply H. now right.
Qed.

Lemma Qsum_add f g l :
  Qsum (fun m => f m + g m) l == Qsum f l + Qsum g l.
Proof.
  unfold Qsum. induction l as [|a l IH]; simpl; [reflexivity|].
  rewrite IH. ring.
Qed.

Lemma Qsum_scale f (c : Q) l :
  Qsum (fun m => f m * c) l == Qsum f l * c.
Proof.
  unfold Qsum. induction l as [|a l IH]; simpl; [ring|].
  rewrite IH. ring.
Qed.

Lemma Qsum_div f (c : Q) l :
  Qsum f l / c == Qsum (fun m => f m / c) l.
Proof. unfold Qdiv. now rewrite Qsum_scale. Qed.

Lemma Qsum_zero l : Qsum (fun _ : I => 0) l == 0.
Proof.
  unfold Qsum. induction l as [|a l IH]; simpl; [reflexivity|].
  rewrite IH. ring.
Qed.

Lemma Qsum_snoc f l (a : I) : Qsum f (l ++ [a]) == Qsum f l + f a.
Proof.
  unfold Qsum. induction l as [|b l IH]; simpl; [ring|].
  rewrite IH. ring.
Qed.
End Sums.

(** Case analysis on the integer comparisons of a goal. *)
Ltac zcases :=
  repeat match goal with
    | |- context [(?a <=? ?b)%Z] => destruct (Z.leb_spec a b)
    | |- context [(?a <? ?b)%Z] => destruct (Z.ltb_spec a b)
    | |- context [(?a =? ?b)%Z] => destruct (Z.eqb_spec a b)
    end;
  cbn [andb orb negb]; try lia.

(** The one sample of a signal at position [c], as a sum. *)
Lemma Qsum_single (s : list Q) (c : Z) (n : nat) :
  Qsum (fun m => if (Z.of_nat m =? c)%Z then nth m s 0 else 0) (seq 0 n)
  == if ((0 <=? c) && (c <? Z.of_nat n))%Z then nth (Z.to_nat c) s 0 else 0.
Proof.
  induction n as [|n IH].
  - unfold Qsum. simpl. zcases; reflexivity.
  - rewrite seq_S, Qsum_snoc, IH. cbn [Nat.add].
    zcases; try ring.
    subst c. rewrite Nat2Z.id. ring.
Qed.

Lemma Qsum_single_padded (s : list Q) (c : Z) :
  Qsum (fun m => if (Z.of_nat m =? c)%Z then nth m s 0 else 0)
    (seq 0 (length s))
  == padded s c.
Proof.
  rewrite Qsum_single. unfold padded.
  zcases; try reflexivity.
  rewrite nth_overflow by lia. reflexivity.
Qed.

(** The samples of a window [lo, lo + W) that exist, summed, are the sum
    of the window over the zero-padded signal. *)
Lemma Qsum_window (s : list Q) (lo : Z) (W : nat) :
  Qsum (fun m => if ((lo <=? Z.of_nat m) && (Z.of_nat m <? lo + Z.of_nat W))%Z
                 then nth m s 0 else 0)
    (seq 0 (length s))
  == Qsum (fun d => padded s (lo + Z.of_nat d)) (seq 0 W).
Proof.
  induction W as [|W IH].
  - cbn [seq]. unfold Qsum at 2. cbn [map fold_right].
    rewrite <- (Qsum_zero (seq 0 (length s))). apply Qsum_ext.
    intros m _. zcases; reflexivity.
  - rewrite seq_S, Qsum_snoc, <- IH. cbn [Nat.add].
    rewrite <- Qsum_single_padded, <- Qsum_add. apply Qsum_ext.
    intros m _. zcases; ring.
Qed.

Lemma nth_kernel (c : Q) (W j : nat) :
  nth j (map (fun o => o / c) (repeat 1 W)) 0
  = if (j <? W)%nat then 1 / c else 0.
Proof.
  revert j. induction W as [|W IH]; intros [|j]; simpl; auto.
Qed.

Lemma effective_window_odd (window : Z) :
  (effective_window window mod 2 =? 0)%Z = false.
Proof.
  unfold effective_window.
  destruct (Z.eqb_spec (window mod 2) 0) as [E|E]; apply Z.eqb_neq.
  - replace ((window + 1) mod 2)%Z with 1%Z; [lia|].
    rewrite Z.add_mod, E by lia. reflexivity.
  - exact E.
Qed.

Lemma effective_window_bounds (window : Z) :
  (window <= effective_window window <= window + 1)%Z.
Proof. unfold effective_window. destruct (_ =? _)%Z; lia. Qed.

Lemma smooth_effective_window (y : list Q) (window : Z) :
  _smooth y window = _smooth y (effective_window window).
Proof.
  unfold _smooth at 2. rewrite effective_window_odd.
  unfold _smooth. fold (effective_window window).
  pose proof (effective_window_bounds window) as Hb.
  destruct (Z.leb_spec window 1) as [H1|H1];
    destruct (Z.leb_spec (effective_window window) 1) as [H2|H2];
    try reflexivity; exfalso.
  - assert (window = 1)%Z as -> by lia. vm_compute in H2. discriminate H2.
  - lia.
Qed.

(** A sample of the convolution with the kernel [ones(w) / w], for an odd
    [w], is the boxcar average around it. *)
Lemma convolve_boxcar (s : list Q) (w : Z) (k : nat) :
  (1 < w)%Z -> (w mod 2 =? 0)%Z = false ->
  convolve_full_at s (map (fun o => o / inject_Z w) (repeat 1 (Z.to_nat w)))
    (k + (Z.to_nat w - 1) / 2)
  == boxcar s w k.
Proof.
  intros Hw Hodd. apply Z.eqb_neq in Hodd.
  set (h := ((w - 1) / 2)%Z).
  assert (Hh : (w = 2 * h + 1)%Z).
  { unfold h. pose proof (Z.div_mod (w - 1) 2).
    assert ((w - 1) mod 2 = 0)%Z; [|lia].
    pose proof (Z.mod_pos_bound w 2). pose proof (Z.div_mod w 2).
    pose proof (Z.mod_pos_bound (w - 1) 2).
    assert (w mod 2 = 1)%Z by lia.
    replace (w - 1)%Z with (0 + (w / 2) * 2)%Z by lia.
    now rewrite Z.mod_add by lia. }
  assert (Hhn : ((Z.to_nat w - 1) / 2)%nat = Z.to_nat h).
  { apply Nat2Z.inj. rewrite Nat2Z.inj_div, Nat2Z.inj_sub by lia.
    rewrite !Z2Nat.id by lia. reflexivity. }
  rewrite Hhn. unfold boxcar, convolve_full_at. fold h.
  assert (Hwin :
    Qsum (fun m =>
            if ((Z.of_nat k - h <=? Z.of_nat m)
                && (Z.of_nat m <? Z.of_nat k - h + Z.of_nat (Z.to_nat w)))%Z
            then nth m s 0 else 0)
      (seq 0 (length s))
    == Qsum (fun d => padded s (Z.of_nat k + Z.of_nat d - h))
         (seq 0 (Z.to_nat w))).
  { rewrite Qsum_window. apply Qsum_ext. intros d _.
    replace (Z.of_nat k - h + Z.of_nat d)%Z
      with (Z.of_nat k + Z.of_nat d - h)%Z by lia.
    reflexivity. }
  rewrite <- Hwin, Qsum_div.
  apply Qsum_ext. intros m _. rewrite nth_kernel.
  destruct (Nat.leb_spec m (k + Z.to_nat h)) as [E1|E1];
    [destruct (Nat.ltb_spec (k + Z.to_nat h - m) (Z.to_nat w)) as [E2|E2]|];
    zcases; unfold Qdiv; ring.
Qed.

Lemma nth_map_seq (f : nat -> Q) (n k : nat) :
  (k < n)%nat -> nth k (map f (seq 0 n)) 0 = f k.
Proof.
  intro Hk. rewrite (nth_indep _ 0 (f 0%nat)) by now rewrite length_map, length_seq.
  rewrite map_nth, seq_nth by exact Hk. reflexivity.
Qed.

Lemma rolling_mean_center_length (s : list Q) (w : nat) :
  length (rolling_mean_center s w) = length s.
Proof. unfold rolling_mean_center. now rewrite length_map, length_seq. Qed.

Lemma template_smooth_length (s : list Q) (w : Z) :
  length (template_smooth s w) = length s.
Proof.
  unfold template_smooth. destruct (w <=? 1)%Z; [reflexivity|].
  apply rolling_mean_center_length.
Qed.

Lemma template_smooth_effective_window (s : list Q) (window : Z) :
  template_smooth s window = template_smooth s (effective_window window).
Proof.
  unfold template_smooth at 2. rewrite effective_window_odd.
  unfold template_smooth. fold (effective_window window).
  pose proof (effective_window_bounds window) as Hb.
  destruct (Z.leb_spec window 1) as [H1|H1];
    destruct (Z.leb_spec (effective_window window) 1) as [H2|H2];
    try reflexivity; exfalso.
  - assert (window = 1)%Z as -> by lia. vm_compute in H2. discriminate H2.
  - lia.
Qed.

Lemma odd_half_window (w : Z) :
  (1 < w)%Z -> (w mod 2 =? 0)%Z = false -> (w = 2 * ((w - 1) / 2) + 1)%Z.
Proof.
  intros Hw Hodd. apply Z.eqb_neq in Hodd.
  Z.div_mod_to_equations. lia.
Qed.

(** A sample of the smoothed signal only depends on the samples of the
    window that is centred on it. *)
Lemma smooth_local (s s' : list Q) (window : Z) (k : nat) :
  (1 < window)%Z -> (effective_window window <= Z.of_nat (length s))%Z ->
  length s' = length s ->
  (forall j, in_window (effective_window window) k j ->
             nth j s' 0 = nth j s 0) ->
  nth k (_smooth s' window) 0 == nth k (_smooth s window) 0.
Proof.
  intros H1 H2 Hl Hwin.
  pose proof (effective_window_bounds window) as Hb.
  pose proof (effective_window_odd window) as Hodd.
  set (w := effective_window window) in *.
  unfold _smooth. fold (effective_window window). fold w.
  replace (window <=? 1)%Z with false by (symmetry; apply Z.leb_gt; lia).
  rewrite Hl.
  replace (Z.of_nat (length s) <? w)%Z with false
    by (symmetry; apply Z.ltb_ge; lia).
  destruct (Nat.lt_ge_cases k (length s)) as [Hk|Hk].
  2:{ rewrite !nth_overflow; [reflexivity| |];
        rewrite convolve_same_length; lia. }
  unfold convolve_same. rewrite Hl, !nth_map_seq by exact Hk.
  rewrite length_map, repeat_length.
  rewrite !convolve_boxcar by (try lia; exact Hodd).
  unfold boxcar, Qdiv. apply Qmult_comp; [|reflexivity].
  apply Qsum_ext. intros d Hd.
  apply in_seq in Hd. unfold padded.
  destruct (Z.ltb_spec (Z.of_nat k + Z.of_nat d - (w - 1) / 2) 0) as [E|E];
    [reflexivity|].
  destruct (Nat.lt_ge_cases
              (Z.to_nat (Z.of_nat k + Z.of_nat d - (w - 1) / 2)) (length s))
    as [Hj|Hj].
  - rewrite Hwin; [reflexivity|]. unfold in_window. fold w.
    pose proof (@odd_half_window w ltac:(lia) Hodd). lia.
  - rewrite !nth_overflow by lia. reflexivity.
Qed.



(** * Further properties of the library routines *)

(** ** The records of a result, one candidate at a time *)

Lemma collect_records (P : PeakRange -> Prop) (x ss : list Q) (mp : Q)
    (k : Kind) (peaks : list nat) (cs : list (Q * PeakRange)) :
  (forall i t, In i peaks -> candidate x ss mp k i = Ok (Some t) ->
               P (snd t)) ->
  collect x ss mp k peaks = Ok cs -> Forall (fun t => P (snd t)) cs.
Proof.
  revert cs. induction peaks as [|i peaks IH]; intros cs HP; simpl.
  - intro H. injection H as <-. constructor.
  - destruct (candidate x ss mp k i) as [c| |] eqn:Ec; try discriminate.
    cbn [bind].
    destruct (collect x ss mp k peaks) as [cs'| |]; try discriminate.
    cbn [bind]. intro H. injection H as <-.
    assert (Hrest : Forall (fun t => P (snd t)) cs').
    { apply IH; [|reflexivity]. intros j t Hj. apply HP. now right. }
    destruct c as [t|]; [|exact Hrest].
    constructor; [|exact Hrest]. apply (HP i); [now left|exact Ec].
Qed.

Lemma extract_peaks_from_signal_records (P : PeakRange -> Prop)
    (x s : list Q) (top_n w : Z) (ratio : Q) (k : Kind)
    (res : list PeakRange) :
  (forall mp i t, In i (_local_maxima_indices (_smooth s w)) ->
                  candidate x (_smooth s w) mp k i = Ok (Some t) ->
                  P (snd t)) ->
  _extract_peaks_from_signal x s top_n w ratio k = Ok res ->
  Forall P res.
Proof.
  intro HP. unfold _extract_peaks_from_signal.
  destruct (length (_local_maxima_indices (_smooth s w)) =? 0)%nat.
  { intro H. injection H as <-. constructor. }
  match goal with |- bind ?c _ = _ -> _ => destruct c as [span| |] end;
    try discriminate.
  cbn [bind].
  match goal with |- bind (collect _ _ ?m _ _) _ = _ -> _ =>
    set (mp := m) end.
  destruct (collect x (_smooth s w) mp k
              (_local_maxima_indices (_smooth s w))) as [cs| |] eqn:Ec;
    try discriminate.
  cbn [bind]. intro H. injection H as <-.
  apply (collect_records P) in Ec; [|apply HP].
  rewrite Forall_map. apply Forall_forall. intros t Ht.
  assert (Hin : In t cs).
  { eapply Permutation_in; [apply sort_desc_perm|].
    rewrite <- (firstn_skipn (Z.to_nat (Z.max 0 top_n)) (sort_desc cs)).
    apply in_or_app. now left. }
  rewrite Forall_forall in Ec. apply Ec, Hin.
Qed.

Lemma extract_top_peaks_records (P : PeakRange -> Prop)
    (x y : list sample) (top_n : Z) (mode : Mode) (w : Z) (ratio : Q)
    (res : list PeakRange) :
  (forall s mp k i t,
      length s = length (valid_x x y) ->
      strict_local_max (_smooth s w) i ->
      candidate (valid_x x y) (_smooth s w) mp k i = Ok (Some t) ->
      P (snd t)) ->
  extract_top_peaks x y top_n mode w ratio = Ok res ->
  Forall P res.
Proof.
  intros HP.
  destruct (valid_count_cases x y) as [Hrej|[Hl H3]].
  - rewrite extract_top_peaks_rejects by exact Hrej.
    intro H. injection H as <-. constructor.
  - rewrite (@extract_top_peaks_accepts x y top_n mode w ratio Hl H3).
    assert (Hmax : forall k r,
               _extract_peaks_from_signal (valid_x x y) (valid_y x y) top_n
                 w ratio k = Ok r -> Forall P r).
    { intros k r. apply extract_peaks_from_signal_records.
      intros mp i t Hi. apply HP.
      - symmetry. apply valid_xy_length.
      - apply local_maxima_In, Hi. }
    assert (Hmin : forall k r,
               _extract_peaks_from_signal (valid_x x y)
                 (map Qopp (valid_y x y)) top_n w ratio k = Ok r ->
               Forall P r).
    { intros k r. apply extract_peaks_from_signal_records.
      intros mp i t Hi. apply HP.
      - rewrite length_map. symmetry. apply valid_xy_length.
      - apply local_maxima_In, Hi. }
    destruct mode; [|apply Hmax|apply Hmin].
    destruct (_extract_peaks_from_signal (valid_x x y) (valid_y x y) top_n
                w ratio KMax) as [pmax| |] eqn:Emax; try discriminate.
    cbn [bind].
    destruct (_extract_peaks_from_signal (valid_x x y)
                (map Qopp (valid_y x y)) top_n w ratio KMin)
      as [pmin| |] eqn:Emin; try discriminate.
    cbn [bind]. intro H. injection H as <-.
    destruct (Qlt_bool _ _); [apply (Hmin KMin)|apply (Hmax KMax)];
      assumption.
Qed.

(** ** Centers and kinds *)

(** X4.  The center of every record is one of the valid x samples as it
    was handed in: it is never interpolated or smoothed. *)
Theorem center_is_a_valid_sample (x y : list sample) (top_n : Z)
    (mode : Mode) (smooth_window : Z) (min_prominence_ratio : Q) :
  exists res,
    extract_top_peaks x y top_n mode smooth_window min_prominence_ratio
    = Ok res /\
    Forall (fun p => In (center p) (valid_x x y)) res.
Proof.
  destruct (extract_top_peaks_spec x y top_n mode smooth_window
              min_prominence_ratio) as (res & Hres & _).
  exists res. split; [exact Hres|].
  eapply extract_top_peaks_records; [|exact Hres].
  intros s mp k i t Hlen Hmax Hc.
  assert (Hlss : length (valid_x x y) = length (_smooth s smooth_window)).
  { now rewrite smooth_length. }
  destruct Hmax as (Hi1 & Hi2 & _).
  destruct (@candidate_spec (valid_x x y) (_smooth s smooth_window) mp k i
              Hlss Hi1 Hi2) as (c & Hc' & Hprop).
  rewrite Hc in Hc'. injection Hc' as <-.
  destruct (Hprop t eq_refl) as (_ & _ & _ & -> & _).
  unfold at_. apply nth_In. lia.
Qed.

(** X5.  A result never mixes kinds: [mode="max"] returns records of kind
    [max] only, [mode="min"] of kind [min] only, and [mode="auto"] returns
    records of one kind. *)
Theorem result_of_one_kind (x y : list sample) (top_n : Z) (mode : Mode)
    (smooth_window : Z) (min_prominence_ratio : Q) :
  exists res k,
    extract_top_peaks x y top_n mode smooth_window min_prominence_ratio
    = Ok res /\
    Forall (fun p => kind p = k) res /\
    match mode with Max => k = KMax | Min => k = KMin | Auto => True end.
Proof.
  destruct (valid_count_cases x y) as [Hrej|[Hl H3]].
  - exists [], (match mode with Min => KMin | _ => KMax end).
    split; [now apply extract_top_peaks_rejects|].
    split; [constructor|]. now destruct mode.
  - rewrite (@extract_top_peaks_accepts x y top_n mode smooth_window
               min_prominence_ratio Hl H3).
    destruct (@extract_peaks_from_signal_spec (valid_x x y) (valid_y x y)
                top_n smooth_window min_prominence_ratio KMax
                (valid_xy_length x y)) as (pmax & Hmax & Vmax & _).
    destruct (@extract_peaks_from_signal_spec (valid_x x y)
                (map Qopp (valid_y x y)) top_n smooth_window
                min_prominence_ratio KMin) as (pmin & Hmin & Vmin & _).
    { rewrite length_map. apply valid_xy_length. }
    assert (Kmax : Forall (fun p => kind p = KMax) pmax).
    { eapply Forall_impl; [|exact Vmax]. simpl. tauto. }
    assert (Kmin : Forall (fun p => kind p = KMin) pmin).
    { eapply Forall_impl; [|exact Vmin]. simpl. tauto. }
    destruct mode.
    + rewrite Hmax, Hmin. cbn [bind].
      destruct (Qlt_bool _ _).
      * exists pmin, KMin. auto.
      * exists pmax, KMax. auto.
    + exists pmax, KMax. auto.
    + exists pmin, KMin. auto.
Qed.

(** ** Asking for fewer peaks *)

Lemma extract_peaks_from_signal_prefix (x s : list Q) (top_n top_n' w : Z)
    (ratio : Q) (k : Kind) :
  (top_n <= top_n')%Z ->
  _extract_peaks_from_signal x s top_n w ratio k
  = map_result (firstn (Z.to_nat (Z.max 0 top_n)))
      (_extract_peaks_from_signal x s top_n' w ratio k).
Proof.
  intro Hle. unfold _extract_peaks_from_signal, map_result.
  destruct (length (_local_maxima_indices (_smooth s w)) =? 0)%nat.
  { cbn [bind]. now rewrite firstn_nil. }
  match goal with |- bind ?c _ = _ => destruct c as [span| |] end;
    try reflexivity.
  cbn [bind].
  match goal with |- bind ?c _ = _ => destruct c as [cs| |] end;
    try reflexivity.
  cbn [bind]. f_equal.
  rewrite <- firstn_map, <- (firstn_map snd), firstn_firstn. f_equal. lia.
Qed.

(** X7.  In [mode="max"] and in [mode="min"] the result for a smaller
    [top_n] is a prefix of the result for a larger one: the first
    [max(0, top_n)] records of it. *)
Theorem fewer_peaks_is_a_prefix (x y : list sample) (top_n top_n' : Z)
    (mode : Mode) (smooth_window : Z) (min_prominence_ratio : Q) :
  mode <> Auto -> (top_n <= top_n')%Z ->
  exists res,
    extract_top_peaks x y top_n' mode smooth_window min_prominence_ratio
    = Ok res /\
    extract_top_peaks x y top_n mode smooth_window min_prominence_ratio
    = Ok (firstn (Z.to_nat (Z.max 0 top_n)) res).
Proof.
  intros Hmode Hle.
  destruct (extract_top_peaks_spec x y top_n' mode smooth_window
              min_prominence_ratio) as (res & Hres & _).
  exists res. split; [exact Hres|].
  destruct (valid_count_cases x y) as [Hrej|[Hl H3]].
  - rewrite extract_top_peaks_rejects in * by exact Hrej.
    injection Hres as <-. now rewrite firstn_nil.
  - rewrite (@extract_top_peaks_accepts x y top_n mode smooth_window
               min_prominence_ratio Hl H3).
    rewrite (@extract_top_peaks_accepts x y top_n' mode smooth_window
               min_prominence_ratio Hl H3) in Hres.
    destruct mode; [congruence| |];
      rewrite (@extract_peaks_from_signal_prefix _ _ top_n top_n' _ _ _ Hle),
        Hres; reflexivity.
Qed.

Lemma fewer_peaks_is_a_prefix_witness :
  exists res,
    extract_top_peaks scenario_d_x scenario_d_y 5 Max 7 (1 # 100) = Ok res /\
    extract_top_peaks scenario_d_x scenario_d_y 0 Max 7 (1 # 100)
    = Ok (firstn (Z.to_nat (Z.max 0 0)) res).
Proof.
  apply (@fewer_peaks_is_a_prefix scenario_d_x scenario_d_y 0 5 Max 7
           (1 # 100)); [discriminate|lia].
Defined.

(** ** Flat signals that are not smoothed *)

Lemma smooth_short_signal (y : list Q) (w : Z) :
  (Z.of_nat (length y) < effective_window w)%Z -> _smooth y w = y.
Proof.
  intro H. unfold _smooth. fold (effective_window w).
  destruct (w <=? 1)%Z; [reflexivity|].
  apply Z.ltb_lt in H. now rewrite H.
Qed.

Lemma extract_peaks_from_signal_flat (x s : list Q) (top_n w : Z)
    (ratio : Q) (k : Kind) (c : Q) :
  Forall (fun v => v == c) s ->
  (w <= 1)%Z \/ (Z.of_nat (length s) < effective_window w)%Z ->
  _extract_peaks_from_signal x s top_n w ratio k = Ok [].
Proof.
  intros Hflat Hw. unfold _extract_peaks_from_signal.
  assert (Hs : _smooth s w = s).
  { destruct Hw; [now apply smooth_window_le_1|now apply smooth_short_signal]. }
  rewrite Hs, flat_no_local_maxima; [reflexivity|].
  intros i j Hi Hj. rewrite Forall_forall in Hflat.
  rewrite (Hflat (at_ s i)), (Hflat (at_ s j)); [reflexivity| |];
    unfold at_; apply nth_In; assumption.
Qed.

(** X8.  A flat signal yields no peak whenever it is not smoothed, that
    is for [smooth_window <= 1] or with fewer valid samples than the
    window that is used; this holds in every mode. *)
Theorem flat_unsmoothed_signal_is_empty (x y : list sample) (top_n : Z)
    (mode : Mode) (smooth_window : Z) (min_prominence_ratio : Q) (c : Q) :
  Forall (fun v => v == c) (valid_y x y) ->
  (smooth_window <= 1)%Z \/
  (Z.of_nat (length (valid_y x y)) < effective_window smooth_window)%Z ->
  extract_top_peaks x y top_n mode smooth_window min_prominence_ratio
  = Ok [].
Proof.
  intros Hflat Hw.
  destruct (valid_count_cases x y) as [Hrej|[Hl H3]].
  - now apply extract_top_peaks_rejects.
  - rewrite (@extract_top_peaks_accepts x y top_n mode smooth_window
               min_prominence_ratio Hl H3).
    assert (Hneg : Forall (fun v => v == - c) (map Qopp (valid_y x y))).
    { rewrite Forall_map. eapply Forall_impl; [|exact Hflat].
      simpl. intros v Hv. now rewrite Hv. }
    assert (Hw' : (smooth_window <= 1)%Z \/
                  (Z.of_nat (length (map Qopp (valid_y x y)))
                   < effective_window smooth_window)%Z).
    { now rewrite length_map. }
    destruct mode;
      rewrite ?(@extract_peaks_from_signal_flat _ _ _ _ _ _ c Hflat Hw),
        ?(@extract_peaks_from_signal_flat _ _ _ _ _ _ (- c) Hneg Hw');
      reflexivity.
Qed.

Lemma flat_unsmoothed_signal_is_empty_witness :
  extract_top_peaks flat_x flat_y default_top_n Auto 1
    default_min_prominence_ratio = Ok [].
Proof.
  apply (@flat_unsmoothed_signal_is_empty flat_x flat_y default_top_n Auto 1
           default_min_prominence_ratio 5).
  - vm_compute. repeat constructor.
  - left. lia.
Defined.

(** * The quick peak finder *)

(** ** What [find_peaks] reports *)

Lemma seq_sorted (a k : nat) : StronglySorted lt (seq a k).
Proof.
  revert a. induction k as [|k IH]; intro a; simpl; constructor;
    [apply IH|].
  apply Forall_forall. intros i Hi. apply in_seq in Hi. lia.
Qed.

Lemma interior_range (n : nat) :
  Forall (fun i => (1 <= i)%nat /\ (i + 2 <= n)%nat) (seq 1 (n - 2)) /\
  StronglySorted lt (seq 1 (n - 2)).
Proof.
  split.
  - apply Forall_forall. intros i Hi. apply in_seq in Hi. lia.
  - apply seq_sorted.
Qed.

Lemma scan_spec (x y : list F64.float) (mp : option F64.float) (md : Z)
    (last : Z) (range : list nat) :
  length x = length y -> (1 <= md)%Z ->
  Forall (fun i => (1 <= i)%nat /\ (i + 2 <= length y)%nat) range ->
  StronglySorted lt range ->
  exists ps,
    PeakFinder.scan x y mp md last range = Ok ps /\
    Forall (fun p => reported_peak x y mp p /\
                     In (PeakFinder.index p) range /\
                     (last + md <= Z.of_nat (PeakFinder.index p))%Z) ps /\
    spaced md (map PeakFinder.index ps).
Proof.
  intros Hl Hmd Hr Hs. revert last.
  induction range as [|i rest IH]; intro last.
  - exists []. repeat split; constructor.
  - inversion Hr as [|? ? [Hi1 Hi2] Hr']; subst.
    inversion Hs as [|? ? Hs' Hall]; subst.
    specialize (IH Hr' Hs').
    assert (Hskip : exists ps,
               PeakFinder.scan x y mp md last rest = Ok ps /\
               Forall (fun p => reported_peak x y mp p /\
                                In (PeakFinder.index p) (i :: rest) /\
                                (last + md <= Z.of_nat (PeakFinder.index p))%Z)
                 ps /\
               spaced md (map PeakFinder.index ps)).
    { destruct (IH last) as (ps & Hps & Hall' & Hsp).
      exists ps. repeat split; auto.
      eapply Forall_impl; [|exact Hall']. simpl.
      intros p (Ha & Hb & Hc). split; [exact Ha|].
      split; [now right|exact Hc]. }
    simpl PeakFinder.scan.
    destruct (Z.ltb_spec (Z.of_nat i - last) md) as [Hd|Hd]; [exact Hskip|].
    rewrite (F64_get_in_range y (i := i)) by lia.
    rewrite (F64_get_in_range y (i := (i - 1)%nat)) by lia. cbn [bind].
    destruct (F64.leb (F64.at_ y i) (F64.at_ y (i - 1))) eqn:E1;
      [exact Hskip|].
    rewrite (F64_get_in_range y (i := (i + 1)%nat)) by lia. cbn [bind].
    destruct (F64.leb (F64.at_ y i) (F64.at_ y (i + 1))) eqn:E2;
      [exact Hskip|].
    match goal with |- context [if ?c then _ else _] =>
      destruct c eqn:E3 end; [exact Hskip|].
    rewrite (F64_get_in_range x (i := i)) by lia. cbn [bind].
    destruct (IH (Z.of_nat i)) as (ps & Hps & Hall' & Hsp).
    rewrite Hps. cbn [bind]. eexists. split; [reflexivity|]. split.
    + constructor.
      * cbn. split; [|split; [now left|lia]].
        unfold reported_peak. cbn.
        split; [exact Hi1|]. split; [exact Hi2|].
        split; [exact E1|]. split; [exact E2|]. split; [|split; [|split]].
        -- intro Hnan. unfold F64.strict_peak.
           split; [exact Hi1|]. split; [exact Hi2|].
           split; apply not_leb_ltb; auto; apply no_nan_at; auto; lia.
        -- reflexivity.
        -- reflexivity.
        -- intros m ->. exact E3.
      * eapply Forall_impl; [|exact Hall']. simpl.
        intros p (Ha & Hb & Hc). split; [exact Ha|].
        split; [now right|lia].
    + cbn. constructor; [exact Hsp|].
      rewrite Forall_map. eapply Forall_impl; [|exact Hall']. simpl.
      intros p (_ & _ & Hc). exact Hc.
Qed.

Lemma find_peaks_returns (x y : list F64.float)
    (min_prominence : option F64.float) (min_distance : Z) :
  exists ps,
    PeakFinder.find_peaks x y min_prominence min_distance = Ok ps /\
    Forall (reported_peak x y min_prominence) ps /\
    spaced (Z.max 1 min_distance) (map PeakFinder.index ps).
Proof.
  unfold PeakFinder.find_peaks.
  destruct ((length x =? 0)%nat || (length y =? 0)%nat
            || negb (length x =? length y)%nat) eqn:E.
  - exists []. repeat split; constructor.
  - apply orb_false_iff in E. destruct E as [_ E].
    apply negb_false_iff, Nat.eqb_eq in E.
    set (md := if (min_distance <? 1)%Z then 1%Z else min_distance).
    assert (Hmd : md = Z.max 1 min_distance).
    { unfold md. destruct (Z.ltb_spec min_distance 1); lia. }
    destruct (interior_range (length y)) as [Hr Hs].
    destruct (@scan_spec x y min_prominence md (- md) _ E ltac:(lia) Hr Hs)
      as (ps & Hps & Hall & Hsp).
    exists ps. split; [exact Hps|]. split; [|now rewrite <- Hmd].
    eapply Forall_impl; [|exact Hall]. simpl. tauto.
Qed.

(** X9.  [find_peaks] returns for every input, never raising, also when
    samples are infinite or NaN.  Each peak it reports is an interior
    sample for which neither [y[i] <= y[i-1]] nor [y[i] <= y[i+1]] holds;
    in an array without NaN that is a sample strictly above both
    neighbours.  The peak carries the x and y of that sample and, when
    [min_prominence] is given, passed the test on its height above the
    higher neighbour.  The indices increase and any two are at least
    [max(1, min_distance)] apart. *)
Theorem find_peaks_sound (x y : list F64.float)
    (min_prominence : option F64.float) (min_distance : Z) :
  exists ps,
    PeakFinder.find_peaks x y min_prominence min_distance = Ok ps /\
    Forall (reported_peak x y min_prominence) ps /\
    spaced (Z.max 1 min_distance) (map PeakFinder.index ps).
Proof.
  destruct (find_peaks_returns x y min_prominence min_distance)
    as (ps & Hps & Hall & Hsp).
  exists ps. split; [exact Hps|]. split; [exact Hall|exact Hsp].
Qed.

(** The tests of [find_peaks] are negated comparisons, which a NaN
    passes: the NaN sample of y = [0, NaN, 0] is reported as a peak. *)
Lemma find_peaks_reports_nan :
  PeakFinder.find_peaks [F64.of_Z 0; F64.of_Z 1; F64.of_Z 2]
    [F64.zero; F64.nan; F64.zero] None 1
  = Ok [PeakFinder.mkPeak (F64.of_Z 1) F64.nan 1].
Proof. vm_compute. reflexivity. Qed.

(** X10.  [find_peaks] returns no peak when either array is empty or the
    two differ in length, and none for fewer than three samples. *)
Theorem find_peaks_rejects (x y : list F64.float)
    (min_prominence : option F64.float) (min_distance : Z) :
  length x <> length y \/ (length y < 3)%nat ->
  PeakFinder.find_peaks x y min_prominence min_distance = Ok [].
Proof.
  intro H. unfold PeakFinder.find_peaks.
  destruct ((length x =? 0)%nat || (length y =? 0)%nat
            || negb (length x =? length y)%nat) eqn:E; [reflexivity|].
  apply orb_false_iff in E. destruct E as [_ E].
  apply negb_false_iff, Nat.eqb_eq in E.
  destruct H as [H|H]; [congruence|].
  replace (length y - 2)%nat with 0%nat by lia. reflexivity.
Qed.

Lemma find_peaks_rejects_witness :
  PeakFinder.find_peaks [F64.of_Z 1; F64.of_Z 2; F64.of_Z 3]
    [F64.of_Z 5; F64.of_Z 9] None 1 = Ok [].
Proof.
  apply (@find_peaks_rejects [F64.of_Z 1; F64.of_Z 2; F64.of_Z 3]
           [F64.of_Z 5; F64.of_Z 9] None 1).
  left. simpl. lia.
Defined.

Lemma scan_complete (x y : list F64.float) (md : Z) (n : nat) :
  length x = length y -> (1 <= md <= 2)%Z -> F64.no_nan y ->
  forall (a : nat) (last : Z) (ps : list PeakFinder.Peak),
    (1 <= a)%nat -> (a + n + 1 <= length y)%nat ->
    ((last + md <= Z.of_nat a)%Z \/
     exists p, last = Z.of_nat p /\ (p + 1 = a)%nat /\
               F64.ltb (F64.at_ y a) (F64.at_ y p) = true) ->
    PeakFinder.scan x y None md last (seq a n) = Ok ps ->
    forall i, (a <= i < a + n)%nat -> F64.strict_peak y i ->
              In i (map PeakFinder.index ps).
Proof.
  intros Hl Hmd Hnan.
  induction n as [|n IH]; intros a last ps Ha Hn Hinv Hscan i Hi Hpk;
    [lia|].
  simpl seq in Hscan. simpl PeakFinder.scan in Hscan.
  assert (Hnext : forall last',
             ((last' + md <= Z.of_nat (S a))%Z \/
              exists p, last' = Z.of_nat p /\ (p + 1 = S a)%nat /\
                        F64.ltb (F64.at_ y (S a)) (F64.at_ y p) = true) ->
             PeakFinder.scan x y None md last' (seq (S a) n) = Ok ps ->
             i <> a -> In i (map PeakFinder.index ps)).
  { intros last' Hinv' Hs Hne. apply (IH (S a) last' ps); auto; lia. }
  assert (Hnot : ~ F64.strict_peak y a -> i <> a) by (intros Hn' ->; auto).
  destruct (Z.ltb_spec (Z.of_nat a - last) md) as [Hd|Hd].
  - apply (Hnext last); auto.
    + left. destruct Hinv as [Hinv|(p & -> & Hp & _)]; lia.
    + apply Hnot. intros (_ & _ & Hlt & _).
      destruct Hinv as [Hinv|(p & -> & Hp & Hdown)]; [lia|].
      replace (a - 1)%nat with p in Hlt by lia.
      apply ltb_not_leb in Hlt. apply ltb_leb in Hdown. congruence.
  - rewrite (F64_get_in_range y (i := a)) in Hscan by lia.
    rewrite (F64_get_in_range y (i := (a - 1)%nat)) in Hscan by lia.
    cbn [bind] in Hscan.
    destruct (F64.leb (F64.at_ y a) (F64.at_ y (a - 1))) eqn:E1.
    { apply (Hnext last); auto; [left; lia|].
      apply Hnot. intros (_ & _ & Hlt & _).
      apply ltb_not_leb in Hlt. congruence. }
    rewrite (F64_get_in_range y (i := (a + 1)%nat)) in Hscan by lia.
    cbn [bind] in Hscan.
    destruct (F64.leb (F64.at_ y a) (F64.at_ y (a + 1))) eqn:E2.
    { apply (Hnext last); auto; [left; lia|].
      apply Hnot. intros (_ & _ & _ & Hlt).
      apply ltb_not_leb in Hlt. congruence. }
    rewrite (F64_get_in_range x (i := a)) in Hscan by lia.
    cbn [bind] in Hscan.
    destruct (PeakFinder.scan x y None md (Z.of_nat a) (seq (S a) n))
      as [ps'| |] eqn:Es; try discriminate.
    cbn [bind] in Hscan. injection Hscan as <-. cbn [map PeakFinder.index].
    destruct (Nat.eq_dec i a) as [->|Hne]; [now left|right].
    apply (IH (S a) (Z.of_nat a) ps'); auto; try lia.
    right. exists a. split; [reflexivity|]. split; [lia|].
    replace (S a) with (a + 1)%nat by lia.
    apply not_leb_ltb; auto; apply no_nan_at; auto; lia.
Qed.

(** X11.  On an array without NaN, without [min_prominence] and with
    [min_distance <= 2], [find_peaks] reports exactly the interior
    samples that are strictly above both neighbours: two such samples are
    never adjacent, so the distance rule drops none of them. *)
Theorem find_peaks_complete (x y : list F64.float) (min_distance : Z) :
  length x = length y -> (min_distance <= 2)%Z -> F64.no_nan y ->
  exists ps,
    PeakFinder.find_peaks x y None min_distance = Ok ps /\
    forall i, In i (map PeakFinder.index ps) <-> F64.strict_peak y i.
Proof.
  intros Hl Hmd Hnan.
  destruct (find_peaks_returns x y None min_distance) as (ps & Hps & Hall & _).
  exists ps. split; [exact Hps|]. intro i. split.
  - intro Hi. apply in_map_iff in Hi. destruct Hi as (p & <- & Hp).
    rewrite Forall_forall in Hall.
    destruct (Hall p Hp) as (_ & _ & _ & _ & Hstrict & _).
    apply Hstrict, Hnan.
  - intro Hpk. revert Hps. unfold PeakFinder.find_peaks.
    destruct ((length x =? 0)%nat || (length y =? 0)%nat
              || negb (length x =? length y)%nat) eqn:E.
    + destruct Hpk as (H1 & H2 & _).
      apply orb_true_iff in E. destruct E as [E|E].
      * apply orb_true_iff in E. destruct E as [E|E];
          apply Nat.eqb_eq in E; lia.
      * apply negb_true_iff, Nat.eqb_neq in E. congruence.
    + set (md := if (min_distance <? 1)%Z then 1%Z else min_distance).
      assert (Hmd' : (1 <= md <= 2)%Z).
      { unfold md. destruct (Z.ltb_spec min_distance 1); lia. }
      intro Hscan. pose proof Hpk as (H1 & H2 & H3).
      apply (@scan_complete x y md (length y - 2) Hl Hmd' Hnan 1%nat
               (- md)%Z ps); auto; try lia.
Qed.

Lemma find_peaks_complete_witness :
  exists ps,
    PeakFinder.find_peaks
      [F64.of_Z 0; F64.of_Z 1; F64.of_Z 2; F64.of_Z 3; F64.of_Z 4]
      [F64.of_Z 0; F64.of_Z 3; F64.of_Z 1; F64.of_Z 2; F64.of_Z 0] None 2
    = Ok ps /\
    forall i, In i (map PeakFinder.index ps)
              <-> F64.strict_peak
                    [F64.of_Z 0; F64.of_Z 3; F64.of_Z 1; F64.of_Z 2;
                     F64.of_Z 0] i.
Proof.
  apply (@find_peaks_complete
           [F64.of_Z 0; F64.of_Z 1; F64.of_Z 2; F64.of_Z 3; F64.of_Z 4]
           [F64.of_Z 0; F64.of_Z 3; F64.of_Z 1; F64.of_Z 2; F64.of_Z 0] 2);
    [reflexivity|lia|repeat constructor].
Defined.

(** ** The quick finder and the local maxima of the engine *)

(** The mask of [_local_maxima_indices] at position [j], over binary64. *)
Lemma F64_local_maxima_mask_nth (s : list F64.float) (j : nat) :
  (j + 2 < length s)%nat ->
  nth j
    (map (fun t : F64.float * (F64.float * F64.float) =>
            let '(l, (m, r)) := t in
            F64.leb l m && F64.leb r m && (F64.ltb l m || F64.ltb r m))
       (combine (firstn (length s - 2) s)
          (combine (firstn (length s - 2) (skipn 1 s)) (skipn 2 s))))
    false
  = F64.leb (F64.at_ s j) (F64.at_ s (j + 1))
    && F64.leb (F64.at_ s (j + 2)) (F64.at_ s (j + 1))
    && (F64.ltb (F64.at_ s j) (F64.at_ s (j + 1))
        || F64.ltb (F64.at_ s (j + 2)) (F64.at_ s (j + 1))).
Proof.
  intro H.
  set (f := fun t : F64.float * (F64.float * F64.float) => _).
  assert (Hl1 : length (firstn (length s - 2) s) = (length s - 2)%nat).
  { rewrite length_firstn. lia. }
  assert (Hl2 : length (firstn (length s - 2) (skipn 1 s))
                = (length s - 2)%nat).
  { rewrite length_firstn, length_skipn. lia. }
  assert (Hl3 : length (skipn 2 s) = (length s - 2)%nat).
  { rewrite length_skipn. lia. }
  assert (Hlc : length (combine (firstn (length s - 2) (skipn 1 s))
                          (skipn 2 s))
                = (length s - 2)%nat).
  { rewrite length_combine. lia. }
  rewrite (nth_indep _ false (f (F64.nan, (F64.nan, F64.nan)))).
  2:{ rewrite length_map, length_combine. lia. }
  rewrite map_nth.
  rewrite nth_combine by lia.
  rewrite nth_combine by lia.
  rewrite !nth_firstn_lt by lia.
  rewrite !nth_skipn_add.
  unfold f, F64.at_. simpl.
  replace (j + 1)%nat with (S j) by lia.
  replace (j + 2)%nat with (S (S j)) by lia.
  reflexivity.
Qed.

(** A sample strictly above both neighbours is a local maximum of the
    engine. *)
Lemma strict_peak_local_maximum (s : list F64.float) (i : nat) :
  F64.strict_peak s i -> In i (F64._local_maxima_indices s).
Proof.
  intros (H1 & H2 & H3 & H4). unfold F64._local_maxima_indices.
  replace (length s <? 3)%nat with false
    by (symmetry; apply Nat.ltb_ge; lia).
  apply in_map_iff. exists (i - 1)%nat. split; [lia|].
  apply nonzero_from_spec. split; [lia|]. rewrite Nat.sub_0_r.
  rewrite F64_local_maxima_mask_nth by lia.
  replace (i - 1 + 1)%nat with i by lia.
  replace (i - 1 + 2)%nat with (i + 1)%nat by lia.
  rewrite (@ltb_leb _ _ H3), (@ltb_leb _ _ H4), H3. reflexivity.
Qed.

(** X12.  On an array without NaN every index that [find_peaks] reports
    is also an index of [_local_maxima_indices] on the same signal: the
    quick finder only sees local maxima that the extraction engine sees
    as well. *)
Theorem find_peaks_within_local_maxima (x y : list F64.float)
    (min_prominence : option F64.float) (min_distance : Z) :
  F64.no_nan y ->
  exists ps,
    PeakFinder.find_peaks x y min_prominence min_distance = Ok ps /\
    Forall (fun p => In (PeakFinder.index p) (F64._local_maxima_indices y))
      ps.
Proof.
  intro Hnan.
  destruct (find_peaks_returns x y min_prominence min_distance)
    as (ps & Hps & Hall & _).
  exists ps. split; [exact Hps|].
  eapply Forall_impl; [|exact Hall]. simpl.
  intros p (_ & _ & _ & _ & Hstrict & _).
  apply strict_peak_local_maximum, Hstrict, Hnan.
Qed.

Lemma find_peaks_within_local_maxima_witness :
  exists ps,
    PeakFinder.find_peaks
      [F64.of_Z 0; F64.of_Z 1; F64.of_Z 2; F64.of_Z 3; F64.of_Z 4]
      [F64.of_Z 0; F64.of_Z 3; F64.of_Z 1; F64.of_Z 2; F64.of_Z 0]
      (Some (F64.of_Z 1)) 1
    = Ok ps /\
    Forall (fun p =>
              In (PeakFinder.index p)
                 (F64._local_maxima_indices
                    [F64.of_Z 0; F64.of_Z 3; F64.of_Z 1; F64.of_Z 2;
                     F64.of_Z 0])) ps.
Proof.
  apply (@find_peaks_within_local_maxima
           [F64.of_Z 0; F64.of_Z 1; F64.of_Z 2; F64.of_Z 3; F64.of_Z 4]
           [F64.of_Z 0; F64.of_Z 3; F64.of_Z 1; F64.of_Z 2; F64.of_Z 0]
           (Some (F64.of_Z 1)) 1).
  repeat constructor.
Defined.

(** * The waterfall offset *)

(** ** Sorting numbers *)

Lemma insert_asc_perm (v : F64.float) (l : list F64.float) :
  Permutation (insert_asc v l) (v :: l).
Proof.
  induction l as [|u l IH]; simpl; [reflexivity|].
  destruct (F64.ltb u v); [|reflexivity].
  rewrite IH. apply perm_swap.
Qed.

Lemma py_sorted_perm (l : list F64.float) : Permutation (py_sorted l) l.
Proof.
  induction l as [|v l IH]; simpl; [reflexivity|].
  rewrite insert_asc_perm. now constructor.
Qed.

Lemma insert_asc_sorted (v : F64.float) (l : list F64.float) :
  F64.isnan v = false -> F64.no_nan l ->
  ascending l -> ascending (insert_asc v l).
Proof.
  unfold ascending. intros Hv Hn Hs.
  induction Hs as [|u l Hs IH Hall]; simpl.
  - repeat constructor.
  - inversion Hn as [|? ? Hu Hn']; subst.
    destruct (F64.ltb u v) eqn:E.
    + constructor; [exact (IH Hn')|].
      eapply Permutation_Forall; [symmetry; apply insert_asc_perm|].
      constructor; [|exact Hall]. apply ltb_leb, E.
    + assert (Hvu : F64.leb v u = true).
      { destruct (F64.leb v u) eqn:E'; [reflexivity|].
        rewrite (@not_leb_ltb _ _ Hv Hu E') in E. discriminate. }
      constructor; [constructor; assumption|].
      constructor; [exact Hvu|].
      eapply Forall_impl; [|exact Hall]. simpl. intros w Hw.
      eapply leb_trans; eassumption.
Qed.

Lemma py_sorted_sorted (l : list F64.float) :
  F64.no_nan l -> ascending (py_sorted l).
Proof.
  induction 1 as [|v l Hv Hn IH]; simpl; [constructor|].
  apply insert_asc_sorted; auto.
  eapply Permutation_Forall; [symmetry; apply py_sorted_perm|exact Hn].
Qed.

Lemma ascending_at (l : list F64.float) (i j : nat) :
  F64.no_nan l -> ascending l -> (i <= j)%nat -> (j < length l)%nat ->
  F64.leb (F64.at_ l i) (F64.at_ l j) = true.
Proof.
  unfold ascending, F64.at_. intros Hn H. revert i j.
  induction H as [|a l Hs IH Hall]; intros i j Hij Hj; simpl in Hj; [lia|].
  inversion Hn as [|? ? Ha Hn']; subst.
  destruct i as [|i], j as [|j]; simpl; try lia.
  - now apply leb_refl.
  - rewrite Forall_forall in Hall. apply Hall, nth_In. lia.
  - apply IH; auto; lia.
Qed.

Lemma filter_length_perm (f : F64.float -> bool) (l l' : list F64.float) :
  Permutation l l' -> length (filter f l) = length (filter f l').
Proof.
  induction 1 as [|a l l' _ IH|a b l|l l' l'' _ IH1 _ IH2]; simpl; auto.
  - destruct (f a); simpl; auto.
  - destruct (f a), (f b); reflexivity.
  - congruence.
Qed.

Lemma filter_length_all (f : F64.float -> bool) (l : list F64.float) :
  Forall (fun v => f v = true) l -> length (filter f l) = length l.
Proof.
  induction 1 as [|a l Ha _ IH]; simpl; [reflexivity|].
  rewrite Ha. simpl. now rewrite IH.
Qed.

Lemma filter_length_firstn (f : F64.float -> bool) (l : list F64.float)
    (n : nat) :
  (length (filter f (firstn n l)) <= length (filter f l))%nat.
Proof.
  rewrite <- (firstn_skipn n l) at 2. rewrite filter_app, length_app. lia.
Qed.

Lemma filter_length_skipn (f : F64.float -> bool) (l : list F64.float)
    (n : nat) :
  (length (filter f (skipn n l)) <= length (filter f l))%nat.
Proof.
  rewrite <- (firstn_skipn n l) at 2. rewrite filter_app, length_app. lia.
Qed.

(** In a sorted list at least [j + 1] values are at most the value at
    [j], and at least [n - j] are at least that value. *)
Lemma sorted_count_le (l : list F64.float) (j : nat) :
  F64.no_nan l -> ascending l -> (j < length l)%nat ->
  (S j <= count_le (F64.at_ l j) l)%nat.
Proof.
  intros Hn Hs Hj. unfold count_le.
  eapply Nat.le_trans; [|apply (filter_length_firstn _ l (S j))].
  rewrite filter_length_all.
  - rewrite length_firstn. lia.
  - apply Forall_forall. intros v Hv.
    apply (In_nth _ _ F64.nan) in Hv. destruct Hv as (i & Hi & <-).
    rewrite length_firstn in Hi. rewrite nth_firstn_lt by lia.
    apply (@ascending_at l i j); auto; lia.
Qed.

Lemma sorted_count_ge (l : list F64.float) (j : nat) :
  F64.no_nan l -> ascending l -> (j < length l)%nat ->
  (length l - j <= count_ge (F64.at_ l j) l)%nat.
Proof.
  intros Hn Hs Hj. unfold count_ge.
  eapply Nat.le_trans; [|apply (filter_length_skipn _ l j)].
  rewrite filter_length_all.
  - rewrite length_skipn. lia.
  - apply Forall_forall. intros v Hv.
    apply (In_nth _ _ F64.nan) in Hv. destruct Hv as (i & Hi & <-).
    rewrite length_skipn in Hi. rewrite nth_skipn_add.
    apply (@ascending_at l j (j + i)); auto; lia.
Qed.

(** ** The median *)

Lemma median_spec (values : list F64.float) :
  values <> [] -> F64.no_nan values ->
  exists m arr,
    _median values = Ok m /\ Permutation arr values /\ ascending arr /\
    ((length arr mod 2 = 1)%nat /\ m = F64.at_ arr (length arr / 2)
     \/
     (length arr mod 2 = 0)%nat /\ (1 <= length arr / 2)%nat /\
     m = F64.div (F64.add (F64.at_ arr (length arr / 2 - 1))
                    (F64.at_ arr (length arr / 2)))
           (F64.of_Z 2)).
Proof.
  intros Hne Hnan. unfold _median.
  assert (Hlen : length (py_sorted values) = length values).
  { apply Permutation_length, py_sorted_perm. }
  assert (Hpos : (0 < length values)%nat).
  { destruct values; [congruence|simpl; lia]. }
  replace (length values =? 0)%nat with false
    by (symmetry; apply Nat.eqb_neq; lia).
  pose proof (py_sorted_sorted Hnan) as Hsorted.
  set (arr := py_sorted values) in *.
  assert (Hmid : (length arr / 2 < length arr)%nat).
  { apply Nat.div_lt; lia. }
  pose proof (Nat.div_mod (length arr) 2 ltac:(lia)) as Hdm.
  pose proof (Nat.mod_upper_bound (length arr) 2 ltac:(lia)) as Hmb.
  destruct (Nat.eqb_spec (length arr mod 2) 1) as [Hodd|Heven].
  - exists (F64.at_ arr (length arr / 2)), arr.
    split; [now apply F64_get_in_range|].
    split; [apply py_sorted_perm|]. split; [exact Hsorted|].
    left. split; [exact Hodd|reflexivity].
  - assert (Hm0 : (length arr mod 2 = 0)%nat) by lia.
    assert (Hge : (1 <= length arr / 2)%nat) by lia.
    rewrite (F64_get_in_range arr (i := (length arr / 2 - 1)%nat)) by lia.
    rewrite (F64_get_in_range arr (i := (length arr / 2)%nat)) by lia.
    cbn [bind]. eexists. exists arr. split; [reflexivity|].
    split; [apply py_sorted_perm|]. split; [exact Hsorted|].
    right. repeat split; auto.
Qed.



(** ** The sign of the offset *)

Lemma binary_round_aux_signless (mx ex : Z) (lx : location) :
  signless (binary_round_aux F64.prec F64.emax false mx ex lx).
Proof.
  unfold binary_round_aux.
  destruct (shr_fexp F64.prec F64.emax mx ex lx) as [mrs e].
  destruct (shr_fexp F64.prec F64.emax _ e loc_Exact) as [mrs' e'].
  destruct (shr_m mrs'); cbn; auto.
  destruct (_ <=? _)%Z; reflexivity.
Qed.

Lemma binary_round_signless (m : positive) (e : Z) :
  signless (binary_round F64.prec F64.emax false m e).
Proof.
  unfold binary_round.
  destruct (shl_align m e _) as [mz ez]. apply binary_round_aux_signless.
Qed.

(** A number above zero is a positive number or [+inf]. *)
Lemma positive_cases (v : F64.float) :
  F64.ltb F64.zero v = true ->
  v = S754_infinity false \/ exists m e, v = S754_finite false m e.
Proof.
  destruct v as [s|[|]| |[|] m e]; cbn; try discriminate; eauto.
Qed.

Lemma add_positive (a b : F64.float) :
  F64.ltb F64.zero a = true -> F64.ltb F64.zero b = true ->
  signless (F64.add a b).
Proof.
  intros Ha Hb.
  destruct (@positive_cases _ Ha) as [->|(ma & ea & ->)];
    destruct (@positive_cases _ Hb) as [->|(mb & eb & ->)]; cbn; auto.
  unfold binary_normalize.
  destruct (shl_align ma ea (Z.min ea eb)) as [ma' ea'].
  destruct (shl_align mb eb (Z.min ea eb)) as [mb' eb']. cbn.
  apply binary_round_signless.
Qed.

Lemma of_Z_signless (z : Z) : (0 <= z)%Z -> signless (F64.of_Z z).
Proof.
  intro H. unfold F64.of_Z, binary_normalize.
  destruct z as [|p|p]; [exact I|apply binary_round_signless|lia].
Qed.

(** Dividing by [2.0] or by [100.0] keeps a number from being
    negative. *)
Lemma div_signless (v d : F64.float) :
  signless v -> (exists m e, d = S754_finite false m e) ->
  signless (F64.div v d).
Proof.
  intros Hv (m & e & ->).
  destruct v as [s|s| |s mv ev]; try exact I.
  - cbn in Hv. subst s. reflexivity.
  - cbn in Hv. subst s. unfold F64.div, SFdiv.
    destruct (SFdiv_core_binary F64.prec F64.emax (Z.pos mv) ev (Z.pos m) e)
      as [[mz ez] lz].
    apply binary_round_aux_signless.
Qed.

Lemma mul_signless (a b : F64.float) :
  signless a -> signless b -> signless (F64.mul a b).
Proof.
  destruct a as [sa|sa| |sa ma ea], b as [sb|sb| |sb mb eb];
    cbn; auto; intros; subst; cbn; auto.
  apply binary_round_aux_signless.
Qed.

Lemma signless_not_negative (v : F64.float) :
  signless v -> F64.ltb v F64.zero = false.
Proof.
  destruct v as [s|s| |s m e]; cbn; auto; intros ->; reflexivity.
Qed.

Lemma positive_spans_positive {L : Type}
    (loaded : list (L * list F64.float * list F64.float)) :
  Forall (fun v => F64.ltb F64.zero v = true) (positive_spans loaded).
Proof.
  induction loaded as [|[[l x] y] rest IH]; simpl; [constructor|].
  destruct (F64.ltb F64.zero _) eqn:E; auto.
Qed.

Lemma positive_not_nan (v : F64.float) :
  F64.ltb F64.zero v = true -> F64.isnan v = false.
Proof. destruct v; cbn; congruence. Qed.

(** ** Flat series *)

Lemma fold_fmax_constant (v : F64.float) (y : list F64.float) :
  Forall (fun u => u = v) y -> fold_left F64.fmax y v = v.
Proof.
  induction 1 as [|u y -> _ IH]; simpl; [reflexivity|].
  replace (F64.fmax v v) with v; [exact IH|].
  unfold F64.fmax. destruct (F64.isnan v), (F64.ltb v v); reflexivity.
Qed.

Lemma fold_fmin_constant (v : F64.float) (y : list F64.float) :
  Forall (fun u => u = v) y -> fold_left F64.fmin y v = v.
Proof.
  induction 1 as [|u y -> _ IH]; simpl; [reflexivity|].
  replace (F64.fmin v v) with v; [exact IH|].
  unfold F64.fmin. destruct (F64.isnan v), (F64.ltb v v); reflexivity.
Qed.

Lemma sub_self_not_positive (v : F64.float) :
  F64.ltb F64.zero (F64.sub v v) = false.
Proof.
  destruct v as [[|]|[|]| |s m e]; try reflexivity.
  cbn. rewrite Z.min_id. unfold shl_align. rewrite Z.sub_diag. cbn.
  reflexivity.
Qed.

(** A series all of whose samples are one and the same number has no
    positive span. *)
Lemma flat_series_span (y : list F64.float) :
  (forall a b, In a y -> In b y -> a = b) ->
  F64.ltb F64.zero (F64.sub (series_max y) (series_min y)) = false.
Proof.
  intro Hflat. unfold series_max, series_min.
  destruct y as [|v y]; [reflexivity|]. cbn [fold_left].
  change (F64.fmax F64.nan v) with v. change (F64.fmin F64.nan v) with v.
  assert (Hall : Forall (fun u => u = v) y).
  { apply Forall_forall. intros u Hu. apply Hflat; [now right|now left]. }
  rewrite (@fold_fmax_constant _ _ Hall), (@fold_fmin_constant _ _ Hall).
  apply sub_self_not_positive.
Qed.

Lemma positive_spans_flat {L : Type}
    (loaded : list (L * list F64.float * list F64.float)) :
  Forall (fun t => forall a b, In a (snd t) -> In b (snd t) -> a = b)
    loaded ->
  positive_spans loaded = [].
Proof.
  induction 1 as [|[[l x] y] rest Hflat _ IH]; simpl; [reflexivity|].
  simpl in Hflat. now rewrite (@flat_series_span _ Hflat).
Qed.

(** [0.0 * (p / 100.0)] is a zero for the percentages of the slider. *)
Lemma zero_offset_percentages :
  forallb (fun n => F64.is_zero
                      (F64.mul F64.zero
                         (F64.div (F64.of_Z (Z.of_nat n)) (F64.of_Z 100))))
    (seq 0 101) = true.
Proof. vm_compute. reflexivity. Qed.

Lemma zero_offset (p : Z) :
  (0 <= p <= 100)%Z ->
  F64.is_zero (F64.mul F64.zero (F64.div (F64.of_Z p) (F64.of_Z 100)))
  = true.
Proof.
  intro H. pose proof zero_offset_percentages as Hall.
  rewrite forallb_forall in Hall.
  specialize (Hall (Z.to_nat p)). rewrite Z2Nat.id in Hall by lia.
  apply Hall. apply in_seq. lia.
Qed.



(** * The generated-script copy *)

(** ** Its local-maximum loop *)

Lemma sorted_lt_ext (l l' : list nat) :
  StronglySorted lt l -> StronglySorted lt l' ->
  (forall i, In i l <-> In i l') -> l = l'.
Proof.
  intro Hs. revert l'. induction Hs as [|a l Hs IH Ha]; intros l' Hs' Hext.
  - destruct l' as [|b l']; [reflexivity|].
    exfalso. apply (Hext b). now left.
  - destruct Hs' as [|b l' Hs' Hb].
    { exfalso. apply (Hext a). now left. }
    rewrite Forall_forall in Ha, Hb.
    assert (a = b).
    { destruct (proj1 (Hext a) (or_introl eq_refl)) as [E|Hin]; [auto|].
      destruct (proj2 (Hext b) (or_introl eq_refl)) as [E|Hin']; [auto|].
      specialize (Ha _ Hin'). specialize (Hb _ Hin). lia. }
    subst b. f_equal. apply IH; [exact Hs'|].
    intro i. split; intro Hi.
    + destruct (proj1 (Hext i) (or_intror Hi)) as [E|Hin]; [|exact Hin].
      subst i. specialize (Ha _ Hi). lia.
    + destruct (proj2 (Hext i) (or_intror Hi)) as [E|Hin]; [|exact Hin].
      subst i. specialize (Hb _ Hi). lia.
Qed.

Lemma template_maxima_loop_spec (arr : list Q) (range : list nat) :
  Forall (fun i => (1 <= i)%nat /\ (i + 2 <= length arr)%nat) range ->
  StronglySorted lt range ->
  exists out,
    template_maxima_loop arr range = Ok out /\
    StronglySorted lt out /\
    forall i, In i out <-> In i range /\ strict_local_max arr i.
Proof.
  intros Hr Hs. induction range as [|i rest IH].
  - exists []. split; [reflexivity|]. split; [constructor|].
    intro i. simpl. tauto.
  - inversion Hr as [|? ? [Hi1 Hi2] Hr']; subst.
    inversion Hs as [|? ? Hs' Hall]; subst.
    destruct (IH Hr' Hs') as (out & Hout & Hsorted & Hin).
    simpl template_maxima_loop.
    rewrite (get_in_range arr (i := i)) by lia.
    rewrite (get_in_range arr (i := (i - 1)%nat)) by lia. cbn [bind].
    set (keep := Qle_bool (at_ arr (i - 1)) (at_ arr i)
                 && (Qle_bool (at_ arr (i + 1)) (at_ arr i)
                     && (Qlt_bool (at_ arr (i - 1)) (at_ arr i)
                         || Qlt_bool (at_ arr (i + 1)) (at_ arr i)))).
    assert (Hkeep : keep = true <-> strict_local_max arr i).
    { unfold keep, strict_local_max.
      rewrite !andb_true_iff, orb_true_iff, !Qle_bool_iff, !Qlt_bool_iff.
      tauto. }
    assert (Hstep : (if Qle_bool (at_ arr (i - 1)) (at_ arr i)
                     then r <- get arr (i + 1) ;;
                          Ok (Qle_bool r (at_ arr i)
                              && (Qlt_bool (at_ arr (i - 1)) (at_ arr i)
                                  || Qlt_bool r (at_ arr i)))
                     else Ok false) = Ok keep).
    { unfold keep. rewrite (get_in_range arr (i := (i + 1)%nat)) by lia.
      cbn [bind]. destruct (Qle_bool (at_ arr (i - 1)) (at_ arr i));
        reflexivity. }
    rewrite Hstep, Hout. cbn [bind]. eexists. split; [reflexivity|].
    assert (Hlt : Forall (lt i) out).
    { apply Forall_forall. intros j Hj. apply Hin in Hj.
      rewrite Forall_forall in Hall. apply Hall, Hj. }
    destruct keep eqn:Ek.
    + split; [constructor; assumption|]. intro j. simpl. rewrite Hin.
      split.
      * intros [<-|[Hj Hm]]; [split; [now left|now apply Hkeep]|].
        split; [now right|exact Hm].
      * intros [[<-|Hj] Hm]; [now left|right; split; assumption].
    + split; [exact Hsorted|]. intro j. rewrite Hin. simpl. split.
      * intros [Hj Hm]. split; [now right|exact Hm].
      * intros [[<-|Hj] Hm]; [|split; assumption].
        apply Hkeep in Hm. discriminate.
Qed.

Lemma template_maxima_loop_interior (s : list Q) :
  template_maxima_loop s (seq 1 (length s - 2))
  = Ok (if (length s <? 3)%nat then [] else _local_maxima_indices s).
Proof.
  destruct (interior_range (length s)) as [Hr Hs].
  destruct (@template_maxima_loop_spec _ _ Hr Hs)
    as (out & Hout & Hsorted & Hin).
  rewrite Hout. f_equal.
  destruct (Nat.ltb_spec (length s) 3) as [Hlt|Hge].
  - destruct out as [|i out]; [reflexivity|].
    destruct (proj1 (Hin i) (or_introl eq_refl)) as [_ (H1 & H2 & _)]. lia.
  - apply sorted_lt_ext; [exact Hsorted|apply local_maxima_sorted|].
    intro i. rewrite Hin, local_maxima_In. split; [tauto|].
    intro Hm. split; [|exact Hm].
    destruct Hm as (H1 & H2 & _). apply in_seq. lia.
Qed.

(** X17.  The local-maximum loop of the generated-script copy returns,
    for every signal, exactly the index list that the vectorised
    [_local_maxima_indices] of the library returns. *)
Theorem template_local_maxima_agree (s : list Q) :
  template_local_maxima_indices s = Ok (_local_maxima_indices s).
Proof.
  unfold template_local_maxima_indices.
  rewrite template_maxima_loop_interior.
  destruct (Nat.ltb_spec (length s) 3) as [Hlt|Hge]; [|reflexivity].
  unfold _local_maxima_indices.
  apply Nat.ltb_lt in Hlt. now rewrite Hlt.
Qed.

(** ** Its results *)

Lemma template_extract_unfold (xa : list Q) (top_n : Z) (k : Kind)
    (signal : list Q) :
  template_extract xa top_n k signal
  = let arr := template_smooth signal 7 in
    if (length (_local_maxima_indices arr) =? 0)%nat then Ok []
    else
      span <- (if negb (length arr =? 0)%nat
               then hi <- nanmax arr ;; lo <- nanmin arr ;; Ok (hi - lo)
               else Ok 0) ;;
      candidates <- collect xa arr
                      (if Qlt_bool 0 span then span * (1 # 100) else 0) k
                      (_local_maxima_indices arr) ;;
      Ok (map snd (firstn (Z.to_nat (Z.max 0 top_n)) (sort_desc candidates))).
Proof.
  unfold template_extract, template_local_maxima_indices.
  set (arr := template_smooth signal 7). cbv zeta.
  rewrite template_maxima_loop_interior.
  destruct (Nat.ltb_spec (length arr) 3) as [Hlt|Hge]; [|reflexivity].
  cbn [bind]. unfold _local_maxima_indices.
  apply Nat.ltb_lt in Hlt. now rewrite Hlt.
Qed.

(** ** Flat signals *)

Lemma sum_of_constants (c : Q) (l : list Q) :
  Forall (fun v => v == c) l ->
  fold_right Qplus 0 l == inject_Z (Z.of_nat (length l)) * c.
Proof.
  induction 1 as [|v l Hv _ IH]; simpl length; simpl fold_right.
  - simpl. ring.
  - rewrite IH, Hv, Nat2Z.inj_succ, <- Z.add_1_r, inject_Z_plus.
    change (inject_Z 1) with 1. ring.
Qed.

Lemma Forall_firstn_skipn (P : Q -> Prop) (l : list Q) (a b : nat) :
  Forall P l -> Forall P (firstn a (skipn b l)).
Proof.
  intro H. apply Forall_forall. intros v Hv.
  rewrite Forall_forall in H. apply H.
  rewrite <- (firstn_skipn b l). apply in_or_app. right.
  rewrite <- (firstn_skipn a (skipn b l)). apply in_or_app. now left.
Qed.

Lemma rolling_mean_center_flat (c : Q) (s : list Q) (w : nat) :
  Forall (fun v => v == c) s ->
  Forall (fun v => v == c) (rolling_mean_center s w).
Proof.
  intro Hflat. unfold rolling_mean_center. rewrite Forall_map.
  apply Forall_forall. intros k Hk. apply in_seq in Hk.
  set (h := ((w - 1) / 2)%nat).
  set (lo := (k - h)%nat).
  set (hi := Nat.min (length s) (k + h + 1)).
  set (win := firstn (hi - lo) (skipn lo s)).
  assert (Hwin : Forall (fun v => v == c) win)
    by now apply Forall_firstn_skipn.
  assert (Hlen : (0 < length win)%nat).
  { unfold win. rewrite length_firstn, length_skipn. unfold hi, lo. lia. }
  rewrite (sum_of_constants Hwin). field.
  change 0 with (inject_Z 0). rewrite inject_Z_injective. lia.
Qed.

Lemma template_smooth_flat (c : Q) (s : list Q) (w : Z) :
  Forall (fun v => v == c) s ->
  Forall (fun v => v == c) (template_smooth s w).
Proof.
  intro H. unfold template_smooth. destruct (w <=? 1)%Z; [exact H|].
  now apply rolling_mean_center_flat.
Qed.

Lemma template_extract_flat (xa : list Q) (top_n : Z) (k : Kind)
    (signal : list Q) (c : Q) :
  Forall (fun v => v == c) signal ->
  template_extract xa top_n k signal = Ok [].
Proof.
  intro Hflat. rewrite template_extract_unfold. cbv zeta.
  rewrite flat_no_local_maxima; [reflexivity|].
  intros i j Hi Hj.
  pose proof (@template_smooth_flat c signal 7 Hflat) as H.
  rewrite Forall_forall in H.
  rewrite (H (at_ _ i)), (H (at_ _ j)); [reflexivity| |];
    unfold at_; apply nth_In; assumption.
Qed.

(** X19.  The generated-script copy returns no peak for a flat signal,
    whatever its length and its constant value: its rolling mean leaves a
    flat signal flat.  (The library routine, which pads with zeros, does
    not share this for signals as long as the window.) *)
Theorem template_flat_signal_is_empty (df : list (Q * Q)) (top_n : Z)
    (c : Q) :
  Forall (fun row => snd row == c) df ->
  _extract_top_peak_ranges df top_n = Ok [].
Proof.
  intro Hflat. unfold _extract_top_peak_ranges.
  destruct (length df <? 3)%nat; [reflexivity|].
  assert (Hy : Forall (fun v => v == c) (map snd df)).
  { now rewrite Forall_map. }
  assert (Hneg : Forall (fun v => v == - c) (map Qopp (map snd df))).
  { rewrite Forall_map. eapply Forall_impl; [|exact Hy].
    simpl. intros v Hv. now rewrite Hv. }
  rewrite (template_extract_flat _ _ _ Hy), (template_extract_flat _ _ _ Hneg).
  reflexivity.
Qed.

Lemma template_flat_signal_is_empty_witness :
  _extract_top_peak_ranges
    [(0, 5); (1, 5); (2, 5); (3, 5); (4, 5); (5, 5); (6, 5)] 5 = Ok [].
Proof.
  apply (@template_flat_signal_is_empty
           [(0, 5); (1, 5); (2, 5); (3, 5); (4, 5); (5, 5); (6, 5)] 5 5).
  repeat constructor.
Defined.

(** * More on [extract_top_peaks] *)

(** ** The parity of the window *)

Lemma extract_peaks_from_signal_effective_window (x s : list Q)
    (top_n w : Z) (ratio : Q) (k : Kind) :
  _extract_peaks_from_signal x s top_n w ratio k
  = _extract_peaks_from_signal x s top_n (effective_window w) ratio k.
Proof.
  unfold _extract_peaks_from_signal.
  now rewrite <- (smooth_effective_window s w).
Qed.

(** X21.  An even [smooth_window] gives the result of the next odd one,
    for every input, mode and other parameters. *)
Theorem even_window_acts_as_next_odd (x y : list sample) (top_n : Z)
    (mode : Mode) (smooth_window : Z) (min_prominence_ratio : Q) :
  (smooth_window mod 2 = 0)%Z ->
  extract_top_peaks x y top_n mode smooth_window min_prominence_ratio
  = extract_top_peaks x y top_n mode (smooth_window + 1)
      min_prominence_ratio.
Proof.
  intro Heven.
  assert (E : effective_window smooth_window = (smooth_window + 1)%Z).
  { unfold effective_window. apply Z.eqb_eq in Heven. now rewrite Heven. }
  unfold extract_top_peaks.
  rewrite !(extract_peaks_from_signal_effective_window _ _ top_n
              smooth_window), E.
  reflexivity.
Qed.

Lemma even_window_acts_as_next_odd_witness :
  extract_top_peaks flat_x flat_y default_top_n Auto 6
    default_min_prominence_ratio
  = extract_top_peaks flat_x flat_y default_top_n Auto (6 + 1)
      default_min_prominence_ratio.
Proof.
  apply (@even_window_acts_as_next_odd flat_x flat_y default_top_n Auto 6
           default_min_prominence_ratio).
  reflexivity.
Defined.

(** ** Samples with a non-finite coordinate *)

Lemma select_finite_mask_app (x1 x2 y1 y2 : list sample) :
  length x1 = length y1 ->
  select (finite_mask (x1 ++ x2) (y1 ++ y2)) (x1 ++ x2)
  = select (finite_mask x1 y1) x1 ++ select (finite_mask x2 y2) x2 /\
  select (finite_mask (x1 ++ x2) (y1 ++ y2)) (y1 ++ y2)
  = select (finite_mask x1 y1) y1 ++ select (finite_mask x2 y2) y2.
Proof.
  revert y1. induction x1 as [|u x1 IH]; intros [|v y1] H; simpl in H;
    try discriminate.
  - split; reflexivity.
  - destruct (IH y1) as [Hx Hy]; [lia|]. simpl.
    destruct (isfinite u && isfinite v); simpl; rewrite Hx, Hy; auto.
Qed.

Lemma valid_samples_skip (x1 x2 y1 y2 : list sample) (u v : sample) :
  length x1 = length y1 -> isfinite u && isfinite v = false ->
  valid_x (x1 ++ u :: x2) (y1 ++ v :: y2) = valid_x (x1 ++ x2) (y1 ++ y2) /\
  valid_y (x1 ++ u :: x2) (y1 ++ v :: y2) = valid_y (x1 ++ x2) (y1 ++ y2).
Proof.
  intros Hl Hnf. unfold valid_x, valid_y.
  destruct (@select_finite_mask_app x1 (u :: x2) y1 (v :: y2) Hl) as [Ex Ey].
  destruct (@select_finite_mask_app x1 x2 y1 y2 Hl) as [Ex' Ey'].
  rewrite Ex, Ey, Ex', Ey'. simpl. rewrite Hnf. split; reflexivity.
Qed.

(** X22.  A sample of which either coordinate is not finite has no effect
    at all: putting such a pair (x, y) anywhere into the input leaves the
    result of [extract_top_peaks] as it is. *)
Theorem nonfinite_sample_has_no_effect (x1 x2 y1 y2 : list sample)
    (u v : sample) (top_n : Z) (mode : Mode) (smooth_window : Z)
    (min_prominence_ratio : Q) :
  length x1 = length y1 -> length x2 = length y2 ->
  isfinite u && isfinite v = false ->
  extract_top_peaks (x1 ++ u :: x2) (y1 ++ v :: y2) top_n mode smooth_window
    min_prominence_ratio
  = extract_top_peaks (x1 ++ x2) (y1 ++ y2) top_n mode smooth_window
      min_prominence_ratio.
Proof.
  intros Hl1 Hl2 Hnf.
  destruct (@valid_samples_skip x1 x2 y1 y2 u v Hl1 Hnf) as [Ex Ey].
  rewrite (@extract_top_peaks_on_valid_samples (x1 ++ u :: x2)
             (y1 ++ v :: y2)).
  2:{ rewrite !length_app. simpl. lia. }
  rewrite (@extract_top_peaks_on_valid_samples (x1 ++ x2) (y1 ++ y2)).
  2:{ rewrite !length_app. lia. }
  now rewrite Ex, Ey.
Qed.

Lemma nonfinite_sample_has_no_effect_witness :
  extract_top_peaks ([Fin 0] ++ Fin 7 :: [Fin 1; Fin 2])
    ([Fin 1] ++ NaN :: [Fin 2; Fin 1]) default_top_n Auto
    default_smooth_window default_min_prominence_ratio
  = extract_top_peaks ([Fin 0] ++ [Fin 1; Fin 2]) ([Fin 1] ++ [Fin 2; Fin 1])
      default_top_n Auto default_smooth_window default_min_prominence_ratio.
Proof.
  apply (@nonfinite_sample_has_no_effect [Fin 0] [Fin 1; Fin 2] [Fin 1]
           [Fin 2; Fin 1] (Fin 7) NaN); reflexivity.
Defined.

(** ** What a record stands for *)

Lemma candidate_explained (x ss : list Q) (mp : Q) (k : Kind) (i : nat)
    (t : Q * PeakRange) :
  length x = length ss -> strict_local_max ss i ->
  candidate x ss mp k i = Ok (Some t) ->
  explained_by x ss (snd t).
Proof.
  intros Hl Hmax. pose proof Hmax as (H1 & H2 & _). unfold candidate.
  destruct (@nearest_local_min_left_spec ss i) as (L & HL & La & Lb & Lc);
    try lia.
  destruct (@nearest_local_min_right_spec ss i) as (R & HR & Ra & Rb & Rc);
    try lia.
  rewrite HL, HR. cbn [bind].
  rewrite (get_in_range ss (i := L)) by lia.
  rewrite (get_in_range ss (i := R)) by lia.
  rewrite (get_in_range ss (i := i)) by lia. cbn [bind].
  destruct (Qle_bool _ 0 || Qlt_bool _ mp); [discriminate|].
  destruct (_half_prominence_width _ _ _ _ _ _ _) as [[l r]| |];
    try discriminate.
  cbn [bind]. rewrite (get_in_range x (i := i)) by lia. cbn [bind].
  intro H. injection H as <-. cbn [snd].
  exists i, L, R. cbn [center prominence].
  repeat split; auto; try lia; apply Hmax.
Qed.

(** X23.  Every record that [_extract_peaks_from_signal] returns is
    explained by the smoothed signal: it belongs to one of its strict
    local maxima, its center is the x of that sample, and its prominence
    is the height of the maximum above the higher of its two flanking
    minima (the nearest local minimum on each side, or the boundary). *)
Theorem records_are_explained (x s : list Q) (top_n smooth_window : Z)
    (min_prominence_ratio : Q) (k : Kind) :
  length x = length s ->
  exists res,
    _extract_peaks_from_signal x s top_n smooth_window min_prominence_ratio k
    = Ok res /\
    Forall (explained_by x (_smooth s smooth_window)) res.
Proof.
  intro Hl.
  destruct (@extract_peaks_from_signal_spec x s top_n smooth_window
              min_prominence_ratio k Hl) as (res & Hres & _).
  exists res. split; [exact Hres|].
  eapply extract_peaks_from_signal_records; [|exact Hres].
  intros mp i t Hi Hc. apply local_maxima_In in Hi.
  eapply candidate_explained; [|exact Hi|exact Hc].
  now rewrite smooth_length.
Qed.

Lemma records_are_explained_witness :
  exists res,
    _extract_peaks_from_signal [0; 1; 2; 3; 4] [0; 4; 1; 2; 0] 5 1 (1 # 100)
      KMax = Ok res /\
    Forall (explained_by [0; 1; 2; 3; 4] (_smooth [0; 4; 1; 2; 0] 1)) res.
Proof.
  apply (@records_are_explained [0; 1; 2; 3; 4] [0; 4; 1; 2; 0] 5 1
           (1 # 100) KMax).
  reflexivity.
Defined.

(** ** Raising the prominence threshold *)

Lemma candidate_threshold (x ss : list Q) (mp mp' : Q) (k : Kind) (i : nat) :
  length x = length ss -> (1 <= i)%nat -> (i + 2 <= length ss)%nat ->
  mp <= mp' ->
  exists c,
    candidate x ss mp k i = Ok c /\
    candidate x ss mp' k i
    = Ok (match c with
          | Some t => if Qlt_bool (fst t) mp' then None else Some t
          | None => None
          end).
Proof.
  intros Hl H1 H2 Hmp. unfold candidate.
  destruct (@nearest_local_min_left_spec ss i) as (L & HL & La & _);
    try lia.
  destruct (@nearest_local_min_right_spec ss i) as (R & HR & Ra & _);
    try lia.
  rewrite HL, HR. cbn [bind].
  rewrite (get_in_range ss (i := L)) by lia.
  rewrite (get_in_range ss (i := R)) by lia.
  rewrite (get_in_range ss (i := i)) by lia. cbn [bind].
  set (baseline := py_max (at_ ss L) (at_ ss R)).
  set (prom := at_ ss i - baseline).
  destruct (Qle_bool prom 0) eqn:E1; cbn [orb].
  { exists None. split; reflexivity. }
  destruct (Qlt_bool prom mp) eqn:E2.
  { exists None. split; [reflexivity|].
    replace (Qlt_bool prom mp') with true; [reflexivity|].
    symmetry. apply Qlt_bool_iff. apply Qlt_bool_iff in E2. lra. }
  destruct (@half_prominence_width_returns x ss i L R baseline prom)
    as (l & r & Hw); try lia.
  rewrite Hw. cbn [bind].
  rewrite (get_in_range x (i := i)) by lia. cbn [bind].
  eexists. split; [reflexivity|]. cbn [fst].
  destruct (Qlt_bool prom mp'); reflexivity.
Qed.

Lemma collect_threshold (x ss : list Q) (mp mp' : Q) (k : Kind)
    (peaks : list nat) :
  length x = length ss -> candidate_indices_ok ss peaks -> mp <= mp' ->
  exists cs,
    collect x ss mp k peaks = Ok cs /\
    collect x ss mp' k peaks
    = Ok (filter (fun t => negb (Qlt_bool (fst t) mp')) cs).
Proof.
  intros Hl Hok Hmp. induction Hok as [|i peaks [Hi1 Hi2] Hok IH].
  - exists []. split; reflexivity.
  - destruct IH as (cs & Hc & Hc').
    destruct (@candidate_threshold x ss mp mp' k i Hl Hi1 Hi2 Hmp)
      as (c & Hcand & Hcand').
    simpl collect. rewrite Hcand, Hcand', Hc, Hc'. cbn [bind].
    eexists. split; [reflexivity|]. f_equal.
    destruct c as [t|]; [|reflexivity]. simpl.
    destruct (Qlt_bool (fst t) mp'); reflexivity.
Qed.

Section Threshold.
Context {A : Type}.
Implicit Types (t u : Q * A) (l : list (Q * A)).

Lemma filter_none (p : Q * A -> bool) l :
  (forall v, In v l -> p v = false) -> filter p l = [].
Proof.
  induction l as [|u l IH]; intro H; [reflexivity|]. simpl.
  rewrite (H u) by now left. apply IH. intros v Hv. apply H. now right.
Qed.

Lemma filter_sorted_desc (p : Q * A -> bool) l :
  sorted_desc l -> sorted_desc (filter p l).
Proof.
  unfold sorted_desc. induction 1 as [|u l Hs IH Hall]; simpl.
  - constructor.
  - destruct (p u); [|exact IH]. constructor; [exact IH|].
    apply Forall_forall. intros v Hv. apply filter_In in Hv.
    rewrite Forall_forall in Hall. apply Hall, Hv.
Qed.

Lemma insert_desc_head t l :
  sorted_desc l -> Forall (fun v => fst v <= fst t) l ->
  insert_desc t l = t :: l.
Proof.
  intros _ Hall. destruct l as [|u l]; [reflexivity|]. simpl.
  inversion Hall as [|? ? Hu _]; subst.
  replace (Qlt_bool (fst t) (fst u)) with false; [reflexivity|].
  symmetry. apply Qlt_bool_false_iff, Hu.
Qed.

Lemma insert_desc_filter (p : Q * A -> bool) t l :
  sorted_desc l ->
  filter p (insert_desc t l)
  = if p t then insert_desc t (filter p l) else filter p l.
Proof.
  induction 1 as [|u l Hs IH Hall]; simpl.
  - destruct (p t); reflexivity.
  - destruct (Qlt_bool (fst t) (fst u)) eqn:E.
    + simpl. rewrite IH. destruct (p u), (p t); simpl; try reflexivity.
      now rewrite E.
    + simpl. destruct (p t) eqn:Et; [|reflexivity].
      destruct (p u) eqn:Eu; simpl; [now rewrite E|].
      symmetry. apply insert_desc_head.
      * apply filter_sorted_desc. exact Hs.
      * apply Qlt_bool_false_iff in E.
        apply Forall_forall. intros v Hv. apply filter_In in Hv.
        rewrite Forall_forall in Hall.
        eapply Qle_trans; [apply Hall, Hv|exact E].
Qed.

Lemma sort_desc_filter (p : Q * A -> bool) l :
  sort_desc (filter p l) = filter p (sort_desc l).
Proof.
  induction l as [|t l IH]; [reflexivity|].
  simpl. rewrite insert_desc_filter by apply sort_desc_sorted.
  destruct (p t); simpl; now rewrite IH.
Qed.

(** In a list sorted by decreasing key, the candidates with a key of at
    least [m] are a prefix. *)
Lemma threshold_filter_prefix (m : Q) l :
  sorted_desc l ->
  filter (fun t => negb (Qlt_bool (fst t) m)) l
  = firstn (length (filter (fun t => negb (Qlt_bool (fst t) m)) l)) l.
Proof.
  induction 1 as [|u l Hs IH Hall]; [reflexivity|]. simpl.
  destruct (Qlt_bool (fst u) m) eqn:E; simpl.
  - assert (Hnone : filter (fun t => negb (Qlt_bool (fst t) m)) l = []).
    { apply Qlt_bool_iff in E. apply filter_none.
      rewrite Forall_forall in Hall. intros v Hv.
      apply negb_false_iff, Qlt_bool_iff.
      pose proof (Hall v Hv). lra. }
    rewrite Hnone. reflexivity.
  - f_equal. exact IH.
Qed.
End Threshold.

Lemma extract_peaks_from_signal_ratio (x s : list Q) (top_n w : Z)
    (r r' : Q) (k : Kind) :
  length x = length s -> r <= r' ->
  exists res m,
    _extract_peaks_from_signal x s top_n w r k = Ok res /\
    _extract_peaks_from_signal x s top_n w r' k = Ok (firstn m res).
Proof.
  intros Hl Hr. unfold _extract_peaks_from_signal.
  set (ss := _smooth s w).
  assert (Hlss : length x = length ss).
  { unfold ss. now rewrite smooth_length. }
  destruct (length (_local_maxima_indices ss) =? 0)%nat eqn:E.
  { exists [], 0%nat. split; reflexivity. }
  assert (Hne : ss <> []).
  { intro H0. rewrite H0 in E. discriminate. }
  destruct (nonempty_reductions Hne) as (hi & lo & Hex & Hhi & Hlo).
  rewrite Hex, Hhi, Hlo. cbn [bind].
  set (mp := if Qlt_bool 0 (hi - lo) then (hi - lo) * r else 0).
  set (mp' := if Qlt_bool 0 (hi - lo) then (hi - lo) * r' else 0).
  assert (Hmp : mp <= mp').
  { unfold mp, mp'. destruct (Qlt_bool 0 (hi - lo)) eqn:Es.
    - apply Qlt_bool_iff in Es. nra.
    - apply Qle_refl. }
  destruct (@collect_threshold x ss mp mp' k (_local_maxima_indices ss) Hlss
              (local_maxima_indices_ok ss) Hmp) as (cs & Hc & Hc').
  rewrite Hc, Hc'. cbn [bind].
  set (n := Z.to_nat (Z.max 0 top_n)).
  set (keep := fun t : Q * PeakRange => negb (Qlt_bool (fst t) mp')).
  exists (map snd (firstn n (sort_desc cs))),
         (Nat.min n (length (filter keep (sort_desc cs)))).
  split; [reflexivity|]. f_equal.
  rewrite sort_desc_filter.
  unfold keep at 1.
  rewrite (threshold_filter_prefix mp' (sort_desc_sorted cs)).
  fold keep.
  rewrite firstn_map, !firstn_firstn. f_equal. f_equal. lia.
Qed.

(** X24.  In [mode="max"] and in [mode="min"], raising
    [min_prominence_ratio] only removes records from the end of the
    result: the result for the larger ratio is a prefix of the result for
    the smaller one. *)
Theorem raising_ratio_keeps_a_prefix (x y : list sample) (top_n : Z)
    (mode : Mode) (smooth_window : Z) (ratio ratio' : Q) :
  mode <> Auto -> ratio <= ratio' ->
  exists res m,
    extract_top_peaks x y top_n mode smooth_window ratio = Ok res /\
    extract_top_peaks x y top_n mode smooth_window ratio'
    = Ok (firstn m res).
Proof.
  intros Hmode Hr.
  destruct (valid_count_cases x y) as [Hrej|[Hl H3]].
  - exists [], 0%nat. rewrite !extract_top_peaks_rejects by exact Hrej.
    split; reflexivity.
  - rewrite !(@extract_top_peaks_accepts x y top_n mode smooth_window _
                Hl H3).
    destruct mode; [congruence| |].
    + apply extract_peaks_from_signal_ratio; [apply valid_xy_length|exact Hr].
    + apply extract_peaks_from_signal_ratio; [|exact Hr].
      rewrite length_map. apply valid_xy_length.
Qed.

Lemma raising_ratio_keeps_a_prefix_witness :
  exists res m,
    extract_top_peaks scenario_d_x scenario_d_y 5 Max 1 (1 # 100) = Ok res /\
    extract_top_peaks scenario_d_x scenario_d_y 5 Max 1 2 = Ok (firstn m res).
Proof.
  apply (@raising_ratio_keeps_a_prefix scenario_d_x scenario_d_y 5 Max 1
           (1 # 100) 2); [discriminate|].
  vm_compute. discriminate.
Defined.

(** * The backend spectroscopy template *)

(** ** Peak detection *)

Lemma nanmin_returns (a : list Q) :
  a <> [] -> exists lo, nanmin a = Ok lo.
Proof.
  intro H. destruct (nonempty_reductions H) as (_ & lo & _ & _ & Hlo).
  now exists lo.
Qed.

Lemma slice_nonempty (a : list Q) (lo hi : nat) :
  (lo < hi)%nat -> (lo < length a)%nat -> slice a lo hi <> [].
Proof.
  intros H1 H2 E. apply (f_equal (@length Q)) in E. unfold slice in E.
  rewrite length_firstn, length_skipn in E. simpl in E. lia.
Qed.

Lemma detect_loop_spec (x y ys : list Q) (mp : Q) (range : list nat) :
  length x = length y -> length ys = length y ->
  Forall (fun i => (1 <= i)%nat /\ (i + 2 <= length ys)%nat) range ->
  exists ps,
    detect_loop x y ys mp range = Ok ps /\
    Forall (detected_peak x y ys mp) ps.
Proof.
  intros Hx Hs Hr. induction Hr as [|i rest [Hi1 Hi2] Hr IH].
  - exists []. split; [reflexivity|constructor].
  - destruct IH as (ps & Hps & Hall). simpl detect_loop.
    rewrite (get_in_range ys (i := i)) by lia.
    rewrite (get_in_range ys (i := (i - 1)%nat)) by lia. cbn [bind].
    destruct (Qlt_bool (at_ ys (i - 1)) (at_ ys i)) eqn:E1;
      [|exists ps; auto].
    rewrite (get_in_range ys (i := (i + 1)%nat)) by lia. cbn [bind].
    destruct (Qlt_bool (at_ ys (i + 1)) (at_ ys i)) eqn:E2;
      [|exists ps; auto].
    destruct (@nanmin_returns (slice ys (i - 10) i)) as (lmin & Hlmin).
    { apply slice_nonempty; lia. }
    destruct (@nanmin_returns
                (slice ys (i + 1) (Nat.min (length ys) (i + 11))))
      as (rmin & Hrmin).
    { apply slice_nonempty; lia. }
    rewrite Hlmin, Hrmin. cbn [bind].
    destruct (Qle_bool mp (at_ ys i - py_min lmin rmin)) eqn:E3;
      [|exists ps; auto].
    rewrite (get_in_range x (i := i)) by lia.
    rewrite (get_in_range y (i := i)) by lia. cbn [bind].
    rewrite Hps. cbn [bind]. eexists. split; [reflexivity|].
    constructor; [|exact Hall].
    exists i. cbn. repeat split; auto.
    + apply Qlt_bool_iff, E1.
    + apply Qlt_bool_iff, E2.
    + apply Qle_bool_iff, E3.
Qed.

Lemma sorted_desc_intensities (l : list (Q * Detected.Peak)) :
  Forall (fun t => fst t = Detected.intensity (snd t)) l -> sorted_desc l ->
  non_increasing (map Detected.intensity (map snd l)).
Proof.
  unfold sorted_desc, non_increasing. intros Hk Hs.
  induction Hs as [|t l Hs IH Hall]; simpl; constructor.
  - apply IH. now inversion Hk.
  - inversion Hk as [|? ? Ht Hl]; subst.
    rewrite Forall_map, Forall_map.
    rewrite Forall_forall in Hall, Hl. apply Forall_forall. intros u Hu.
    rewrite <- Ht, <- (Hl u Hu). apply Hall, Hu.
Qed.

(** X27.  [_detect_peaks] on a non-empty signal with [x] of the same
    length returns without an exception at most ten peaks, in
    non-increasing order of intensity; each is a sample of the smoothed
    signal strictly above both neighbours, reported with the x and the
    unsmoothed y of that sample, and its prominence is at least
    [threshold] times the range of the smoothed signal.  On an empty
    signal the range cannot be taken and [ValueError] is raised. *)
Theorem detect_peaks_spec (x y : list Q) (threshold : Q) :
  length x = length y -> y <> [] ->
  (exists ps hi lo,
      nanmax (_smooth y 5) = Ok hi /\ nanmin (_smooth y 5) = Ok lo /\
      _detect_peaks x y threshold = Ok ps /\
      (length ps <= 10)%nat /\
      non_increasing (map Detected.intensity ps) /\
      Forall (detected_peak x y (_smooth y 5) ((hi - lo) * threshold)) ps) /\
  _detect_peaks x [] threshold = Raise ValueError.
Proof.
  intros Hx Hne. split; [|reflexivity].
  unfold _detect_peaks. set (ys := _smooth y 5).
  assert (Hs : length ys = length y) by apply smooth_length.
  assert (Hyne : ys <> []).
  { intro E. rewrite E in Hs. destruct y; [congruence|discriminate]. }
  destruct (nonempty_reductions Hyne) as (hi & lo & _ & Hhi & Hlo).
  rewrite Hhi, Hlo. cbn [bind].
  destruct (interior_range (length ys)) as [Hr _].
  destruct (@detect_loop_spec x y ys ((hi - lo) * threshold) _ Hx Hs Hr)
    as (ps & Hps & Hall).
  rewrite Hps. cbn [bind].
  set (keyed_ps := map (fun p => (Detected.intensity p, p)) ps).
  assert (Hkeys : Forall (fun t => fst t = Detected.intensity (snd t))
                    (sort_desc keyed_ps)).
  { eapply Permutation_Forall; [symmetry; apply sort_desc_perm|].
    unfold keyed_ps. rewrite Forall_map. apply Forall_forall.
    intros p _. reflexivity. }
  assert (Hin : forall p, In p (map snd (sort_desc keyed_ps)) -> In p ps).
  { intros p Hp. apply in_map_iff in Hp. destruct Hp as (t & <- & Ht).
    apply (Permutation_in _ (sort_desc_perm keyed_ps)) in Ht.
    unfold keyed_ps in Ht. apply in_map_iff in Ht.
    destruct Ht as (p' & <- & Hp'). exact Hp'. }
  eexists. exists hi, lo. split; [reflexivity|]. split; [reflexivity|].
  split; [reflexivity|]. split; [|split].
  - rewrite length_firstn. lia.
  - rewrite firstn_map. apply sorted_desc_intensities.
    + apply Forall_forall. intros t Ht. rewrite Forall_forall in Hkeys.
      apply Hkeys.
      rewrite <- (firstn_skipn 10 (sort_desc keyed_ps)).
      apply in_or_app. now left.
    + apply sorted_desc_firstn, sort_desc_sorted.
  - apply Forall_forall. intros p Hp. rewrite Forall_forall in Hall.
    apply Hall, Hin.
    rewrite <- (firstn_skipn 10 (map snd (sort_desc keyed_ps))).
    apply in_or_app. now left.
Qed.

Lemma detect_peaks_spec_witness :
  (exists ps hi lo,
      nanmax (_smooth [0; 3; 1; 2; 0] 5) = Ok hi /\
      nanmin (_smooth [0; 3; 1; 2; 0] 5) = Ok lo /\
      _detect_peaks [10; 11; 12; 13; 14] [0; 3; 1; 2; 0] (1 # 10) = Ok ps /\
      (length ps <= 10)%nat /\
      non_increasing (map Detected.intensity ps) /\
      Forall (detected_peak [10; 11; 12; 13; 14] [0; 3; 1; 2; 0]
                (_smooth [0; 3; 1; 2; 0] 5) ((hi - lo) * (1 # 10))) ps) /\
  _detect_peaks [10; 11; 12; 13; 14] [] (1 # 10) = Raise ValueError.
Proof.
  apply (@detect_peaks_spec [10; 11; 12; 13; 14] [0; 3; 1; 2; 0] (1 # 10));
    [reflexivity|discriminate].
Defined.
